(** * Coffee.py: search, resolve details concurrently, export

    A shallow embedding of [src/Coffee.py] and the properties of its
    fetch-and-merge pipeline.

    Python values are modelled as follows.
    - [str] is [string]; a character is an [ascii].  The properties below
      only speak of lengths, prefixes and equality of strings.
    - [int] is [Z].
    - What [resp.json()] returns is any JSON value, [JSON]: the search API
      is outside the program, and the code reads the body with
      [dict.get] and a [for] loop, which fail on values of other shapes.
      The values an entry holds under "title", "snippet" and "link" are
      JSON values too, and are stored in the record as they are.
    - The record dictionaries built at lines 115-123 have a fixed set of
      seven keys and are modelled by the record [PlaceRecord].
    - The process state (the list [all_data], the log, the clock, the
      session, the files written) is threaded through a state and
      exception monad [M].
    - Everything outside the program is a field of [World]: the network,
      the scheduler of the event loop, the wall clock, the HTML parser and
      the spreadsheet writer.  The network and the writer may fail; the
      parser is a function from markup to its text nodes, defined on every
      string. *)

From stdpp Require Import base option list gmap strings.
From Stdlib Require Import Ascii ZArith Lia.

Local Open Scope string_scope.
Local Open Scope list_scope.
Local Open Scope Z_scope.

Set Warnings "-register-all".

(** ** Python strings *)

(** [s[:n]] for [0 <= n]: the first [n] characters, or all of [s]. *)
Fixpoint str_take (n : nat) (s : string) : string :=
  match n, s with
  | S n', String c s' => String c (str_take n' s')
  | _, _ => EmptyString
  end.

(** [s[:stop]] for any integer [stop]: a negative [stop] counts from the
    end of the string. *)
Definition slice_to (s : string) (stop : Z) : string :=
  if stop <? 0
  then str_take (Z.to_nat (Z.of_nat (String.length s) + stop)) s
  else str_take (Z.to_nat stop) s.

(** [sep.join(parts)] *)
Definition join (sep : string) (parts : list string) : string :=
  String.concat sep parts.

(** ** Exceptions

    The exceptions modelled are those deriving from [Exception], which the
    two [except Exception] clauses catch; cancellation of the event loop
    and interrupts from outside are not modelled. *)
Inductive exn :=
  | ClientError (msg : string)             (* aiohttp: connection level *)
  | TimeoutError                           (* asyncio.TimeoutError *)
  | ClientResponseError (status : Z) (msg : string)  (* raise_for_status *)
  | DecodeError (msg : string)             (* response.text() / .json() *)
  | IndexError (msg : string)
  | OSError (msg : string)
  | AttributeError (msg : string)
  | TypeError (msg : string)
  | ValueError (msg : string).

(** [str(e)], as the f-strings of the log messages print it. *)
Definition exn_str (e : exn) : string :=
  match e with
  | ClientError msg => msg
  | TimeoutError => ""
  | ClientResponseError _ msg => msg
  | DecodeError msg => msg
  | IndexError msg => msg
  | OSError msg => msg
  | AttributeError msg => msg
  | TypeError msg => msg
  | ValueError msg => msg
  end.

(** ** JSON values, as Python holds them *)

Inductive JSON :=
  | JNull
  | JBool (b : bool)
  | JInt (z : Z)
  | JFloat (literal : string)
  | JStr (s : string)
  | JArr (items : list JSON)
  | JObj (fields : gmap string JSON).

(** [type(v).__name__] *)
Definition type_name (v : JSON) : string :=
  match v with
  | JNull => "NoneType"
  | JBool _ => "bool"
  | JInt _ => "int"
  | JFloat _ => "float"
  | JStr _ => "str"
  | JArr _ => "list"
  | JObj _ => "dict"
  end.

(** The error of [v.get] on a value that has no such method. *)
Definition no_get_error (v : JSON) : exn :=
  AttributeError ("'" +:+ type_name v +:+ "' object has no attribute 'get'").

(** [v.get(key, dflt)]: only a dictionary has the method. *)
Definition dict_get (v : JSON) (key : string) (dflt : JSON) : exn + JSON :=
  match v with
  | JObj fields => inr (default dflt (fields !! key))
  | _ => inl (no_get_error v)
  end.

(** The items of [for x in v]: the elements of a list, the keys of a
    dictionary, the characters of a string; other values are not iterable.
    (The keys come in the order of the map, not in Python's insertion
    order; the loop of line 108 fails on the first key, whichever it is.) *)
Definition py_iter (v : JSON) : exn + list JSON :=
  match v with
  | JArr items => inr items
  | JObj fields => inr (JStr <$> (map_to_list fields).*1)
  | JStr s => inr ((fun c => JStr (String c "")) <$> String.list_ascii_of_string s)
  | _ => inl (TypeError ("'" +:+ type_name v +:+ "' object is not iterable"))
  end.

(** ** The search API and the session *)

Inductive ParamValue := PStr (s : string) | PInt (z : Z).

Record Request := mkRequest {
  req_url : string;
  req_params : list (string * ParamValue);
  req_timeout : option Z
}.

Record Response := mkResponse {
  status : Z;
  (** [str()] of the error [raise_for_status] raises for this response *)
  error_text : string;
  text : exn + string;          (* await response.text() *)
  json : exn + JSON             (* await resp.json() *)
}.

(** ** Records, log entries, spreadsheet *)

Record PlaceRecord := mkPlaceRecord {
  City : string;
  Place_Type : string;
  Name : JSON;
  Description : JSON;
  Details : option string;     (* None until the detail is merged *)
  Link : JSON;
  Fetched_On : string
}.

Definition with_Details (d : option string) (r : PlaceRecord) : PlaceRecord :=
  {| City := City r; Place_Type := Place_Type r; Name := Name r;
     Description := Description r; Details := d; Link := Link r;
     Fetched_On := Fetched_On r |}.

Inductive Level := INFO | WARNING | ERROR.

Definition LogEntry : Type := Level * string.

(** A cell holds a Python value; [JNull] is [None], an empty cell. *)
Definition Sheet : Type := list (list JSON).

(** What [DataFrame.to_excel] did: the file is written, or the call
    failed, leaving nothing or a partial file at the path. *)
Inductive WriteResult :=
  | Written
  | WriteFailed (e : exn) (left_on_disk : option Sheet).

(** Every write to [all_data], in the order the program performs them. *)
Inductive Mutation :=
  | MAppend (r : PlaceRecord)
  | MSetDetails (idx : nat) (d : string).

(** ** The world outside the program *)

Record World := mkWorld {
  (** outcome of the [rid]-th call of [session.get], for a string URL *)
  net : nat -> Request -> exn + Response;
  (** the event loop: which of the pending requests completes next *)
  pick : nat -> nat;
  (** [datetime.now().strftime("%Y-%m-%d %H:%M:%S")] at the n-th reading *)
  now_str : nat -> string;
  (** [BeautifulSoup(html, "html.parser").stripped_strings] *)
  stripped_strings : string -> list string;
  (** [DataFrame.to_excel] *)
  excel_writer : string -> Sheet -> WriteResult;
  (** [str(v)] for a number, a list or a dictionary *)
  py_repr : JSON -> string;
  (** the exception of [session.get(v, ...)] for a [v] that is not a string *)
  bad_url : JSON -> exn
}.

(** ** Process state *)

Record State := mkState {
  all_data : list PlaceRecord;
  history : list Mutation;
  logs : list LogEntry;
  issued : nat;                 (* calls of session.get so far *)
  clock : nat;                  (* readings of the wall clock *)
  slept : list Z;               (* asyncio.sleep calls *)
  files : list (string * Sheet) (* files written *)
}.

Definition set_data (d : list PlaceRecord) (h : list Mutation) (s : State) :=
  mkState d h (logs s) (issued s) (clock s) (slept s) (files s).
Definition set_logs (l : list LogEntry) (s : State) :=
  mkState (all_data s) (history s) l (issued s) (clock s) (slept s) (files s).
Definition set_issued (n : nat) (s : State) :=
  mkState (all_data s) (history s) (logs s) n (clock s) (slept s) (files s).
Definition set_clock (n : nat) (s : State) :=
  mkState (all_data s) (history s) (logs s) (issued s) n (slept s) (files s).
Definition set_slept (l : list Z) (s : State) :=
  mkState (all_data s) (history s) (logs s) (issued s) (clock s) l (files s).
Definition set_files (f : list (string * Sheet)) (s : State) :=
  mkState (all_data s) (history s) (logs s) (issued s) (clock s) (slept s) f.

Definition init_state : State := mkState [] [] [] 0 0 [] [].
(** ** The monad: state and exceptions *)

Inductive Result (A : Type) :=
  | Ok (a : A)
  | Raise (e : exn).
Arguments Ok {A} a.
Arguments Raise {A} e.

Definition M (A : Type) : Type := State -> Result A * State.

Definition ret {A} (a : A) : M A := fun s => (Ok a, s).

Definition bind {A B} (m : M A) (k : A -> M B) : M B :=
  fun s => match m s with
           | (Ok a, s') => k a s'
           | (Raise e, s') => (Raise e, s')
           end.

Definition raise {A} (e : exn) : M A := fun s => (Raise e, s).

(** [try: body  except Exception as e: handler e] *)
Definition try_except {A} (body : M A) (handler : exn -> M A) : M A :=
  fun s => match body s with
           | (Ok a, s') => (Ok a, s')
           | (Raise e, s') => handler e s'
           end.

Declare Scope py_scope.
Delimit Scope py_scope with py.
Notation "x <- c1 ;; c2" := (bind c1 (fun x => c2))
  (at level 100, c1 at next level, right associativity) : py_scope.
Notation "c1 ;; c2" := (bind c1 (fun _ => c2))
  (at level 100, right associativity) : py_scope.
Local Open Scope py_scope.

(** [for x in l: body x] *)
Fixpoint for_each {A} (l : list A) (body : A -> M unit) : M unit :=
  match l with
  | [] => ret tt
  | x :: l' => body x ;; for_each l' body
  end.

(** A [for] loop that grows a local variable. *)
Fixpoint for_fold {A B} (l : list A) (acc : B) (body : B -> A -> M B) : M B :=
  match l with
  | [] => ret acc
  | x :: l' => acc' <- body acc x ;; for_fold l' acc' body
  end.

(** [enumerate(l, start)] *)
Fixpoint enumerate_from {A} (start : nat) (l : list A) : list (nat * A) :=
  match l with
  | [] => []
  | x :: l' => (start, x) :: enumerate_from (S start) l'
  end.

(** [enumerate(l)] *)
Definition enumerate {A} (l : list A) : list (nat * A) := enumerate_from 0 l.

(** ** Primitive effects *)

Definition logging (lvl : Level) (msg : string) : M unit :=
  fun s => (Ok tt, set_logs (logs s ++ [(lvl, msg)]) s).

Definition asyncio_sleep (seconds : Z) : M unit :=
  fun s => (Ok tt, set_slept (slept s ++ [seconds]) s).

(** [all_data = []] *)
Definition all_data_new : M unit :=
  fun s => (Ok tt, set_data [] [] s).

(** [all_data.append(r)] *)
Definition all_data_append (r : PlaceRecord) : M unit :=
  fun s => (Ok tt, set_data (all_data s ++ [r]) (history s ++ [MAppend r]) s).

(** Python's list indexing: a negative index counts from the end. *)
Definition py_index (len : nat) (k : Z) : option nat :=
  let k' := if k <? 0 then k + Z.of_nat len else k in
  if (0 <=? k') && (k' <? Z.of_nat len) then Some (Z.to_nat k') else None.

(** [all_data[k]["Details"] = d] *)
Definition all_data_set_details (k : Z) (d : string) : M unit :=
  fun s => match py_index (length (all_data s)) k with
           | Some n =>
               (Ok tt, set_data (alter (with_Details (Some d)) n (all_data s))
                                (history s ++ [MSetDetails n d]) s)
           | None => (Raise (IndexError "list index out of range"), s)
           end.

Definition get_all_data : M (list PlaceRecord) :=
  fun s => (Ok (all_data s), s).

(** The calls of [session.get] are numbered in the order they are made. *)
Definition fresh_rid : M nat :=
  fun s => (Ok (issued s), set_issued (S (issued s)) s).

(** [response.raise_for_status()]: statuses from 400 on raise. *)
Definition raise_for_status (r : Response) : M unit :=
  if 400 <=? status r
  then raise (ClientResponseError (status r) (error_text r))
  else ret tt.

Definition of_sum {A} (x : exn + A) : M A :=
  match x with
  | inl e => raise e
  | inr a => ret a
  end.

Definition response_text (r : Response) : M string := of_sum (text r).
Definition response_json (r : Response) : M JSON := of_sum (json r).

(** A coroutine object that has not been started: it receives the number
    of its request when the event loop starts it. *)
Definition Coroutine (A : Type) : Type := nat -> M A.

(** Lines 27-32. *)
Definition API_KEY : string :=
  "please create your own account for the key access link: https://serpapi.com/ ".
Definition CITY : string := "Lahore".
Definition PLACE_TYPES : list string := ["coffee shops"].
Definition RESULTS_LIMIT : Z := 5.
Definition OUTPUT_FILE : string := "Coffee_Shops_Lahore.xlsx".
Definition DELAY_BETWEEN_QUERIES : Z := 1.

Definition default_char_limit : Z := 600.

Definition record_keys : list string :=
  ["City"; "Place Type"; "Name"; "Description"; "Details"; "Link"; "Fetched On"].

(** The values of a record, key by key; an unset detail is [None]. *)
Definition record_values (r : PlaceRecord) : list JSON :=
  [JStr (City r); JStr (Place_Type r); Name r; Description r;
   from_option JStr JNull (Details r); Link r; JStr (Fetched_On r)].

Section Program.

Variable w : World.

(** [str(v)], as an f-string prints a value. *)
Definition py_str (v : JSON) : string :=
  match v with
  | JStr s => s
  | JNull => "None"
  | JBool true => "True"
  | JBool false => "False"
  | _ => py_repr w v
  end.

(** [session.get(...)], completed: the world decides the outcome. *)
Definition session_get (rid : nat) (req : Request) : M Response :=
  of_sum (net w rid req).

(** [datetime.now().strftime("%Y-%m-%d %H:%M:%S")] *)
Definition datetime_now : M string :=
  fun s => (Ok (now_str w (clock s)), set_clock (S (clock s)) s).

(** *** fetch_page (lines 38-50) *)
Definition fetch_page (url : string) : Coroutine string := fun rid =>
  try_except
    (response <- session_get rid (mkRequest url [] (Some 10)) ;;
     raise_for_status response ;;
     text <- response_text response ;;
     ret text)
    (fun e =>
       logging WARNING ("Failed to fetch URL " +:+ url +:+ ": " +:+ exn_str e) ;;
       ret "").

(** *** extract_details_from_html (lines 56-65) *)
Definition extract_details_from_html (html : string) (char_limit : Z) : string :=
  if decide (html = "") then "N/A"
  else
    let text := join " " (stripped_strings w html) in
    slice_to text char_limit.

(** *** extract_place_details (lines 71-77) *)
Definition extract_place_details (link : string) : Coroutine string := fun rid =>
  html <- fetch_page link rid ;;
  ret (extract_details_from_html html default_char_limit).

(** Line 113 passes whatever the entry holds under "link".  The two
    functions above are the code at the annotated type [str]; these are the
    same code on any value.  For a value that is not a string
    [session.get] raises before a request is sent, inside the [try] of
    [fetch_page], and the f-string of line 49 prints the value with
    [str]. *)
Definition fetch_page_any (url : JSON) : Coroutine string :=
  match url with
  | JStr u => fetch_page u
  | _ => fun _ =>
      try_except
        (raise (bad_url w url))
        (fun e =>
           logging WARNING
             ("Failed to fetch URL " +:+ py_str url +:+ ": " +:+ exn_str e) ;;
           ret "")
  end.

Definition extract_place_details_any (link : JSON) : Coroutine string :=
  fun rid =>
    html <- fetch_page_any link rid ;;
    ret (extract_details_from_html html default_char_limit).

(** *** asyncio.gather

    The event loop starts the coroutines in the order they were passed, so
    the i-th one issues the request numbered [base + i].  The requests then
    complete in an order the program does not control: at every step the
    world picks one of those still pending.  Each result goes to the slot
    of its coroutine, and the results are returned slot by slot. *)
Fixpoint completion_order (c : nat) (pending : list nat) (fuel : nat) : list nat :=
  match fuel with
  | O => []
  | S fuel' =>
      let p := (pick w c mod length pending)%nat in
      match pending !! p with
      | Some j => j :: completion_order (S c) (delete p pending) fuel'
      | None => []
      end
  end.

Fixpoint complete {A} (tasks : list (Coroutine A)) (base : nat)
    (order : list nat) (slots : list (option A)) : M (list (option A)) :=
  match order with
  | [] => ret slots
  | j :: order' =>
      match tasks !! j with
      | Some task =>
          r <- task (base + j)%nat ;;
          complete tasks base order' (<[j := Some r]> slots)
      | None => complete tasks base order' slots
      end
  end.

Definition launch (n : nat) : M nat :=
  fun s => (Ok (issued s), set_issued (issued s + n) s).

Definition gather {A} (tasks : list (Coroutine A)) : M (list A) :=
  let n := length tasks in
  base <- launch n ;;
  slots <- complete tasks base (completion_order base (seq 0 n) n)
             (replicate n None) ;;
  ret (omap id slots).

(** *** fetch_places_async (lines 83-138) *)

Definition search_params (query api_key : string) (limit : Z)
    : list (string * ParamValue) :=
  [("engine", PStr "google"); ("q", PStr query); ("num", PInt limit);
   ("api_key", PStr api_key)].

(** Lines 109-123: the body of the loop over the result entries. *)
Definition create_record (city place : string)
    (tasks : list (Coroutine string)) (result : JSON)
    : M (list (Coroutine string)) :=
  title <- of_sum (dict_get result "title" (JStr "N/A")) ;;
  snippet <- of_sum (dict_get result "snippet" (JStr "N/A")) ;;
  link <- of_sum (dict_get result "link" (JStr "")) ;;
  let tasks := tasks ++ [extract_place_details_any link] in
  fetched_on <- datetime_now ;;
  all_data_append
    {| City := city; Place_Type := place; Name := title;
       Description := snippet; Details := None; Link := link;
       Fetched_On := fetched_on |} ;;
  ret tasks.

(** Lines 106-123: one coroutine and one record per result entry. *)
Definition create_records (city place : string) (entries : list JSON)
    : M (list (Coroutine string)) :=
  for_fold entries [] (create_record city place).

(** Line 130: the detail of position [i] of [n] goes to the record at
    index [-n + i]. *)
Definition merge_detail (n : nat) (item : nat * string) : M unit :=
  let '(i, details) := item in
  all_data_set_details (- Z.of_nat n + Z.of_nat i) details.

(** Lines 129-130: the details are written back by position. *)
Definition merge_details (details_results : list string) : M unit :=
  for_each (enumerate details_results)
    (merge_detail (length details_results)).

(** Lines 92-136: the body of the loop over [place_types]. *)
Definition query_batch (city api_key : string) (limit : Z) (place : string)
    : M unit :=
  let query := place +:+ " in " +:+ city in
  logging INFO ("Searching: " +:+ query) ;;
  let params := search_params query api_key limit in
  try_except
    (rid <- fresh_rid ;;
     resp <- session_get rid (mkRequest "https://serpapi.com/search" params None) ;;
     raise_for_status resp ;;
     results <- response_json resp ;;
     organic <- of_sum (dict_get results "organic_results" (JArr [])) ;;
     entries <- of_sum (py_iter organic) ;;
     tasks <- create_records city place entries ;;
     details_results <- gather tasks ;;
     merge_details details_results ;;
     asyncio_sleep DELAY_BETWEEN_QUERIES)
    (fun e =>
       logging ERROR ("Error fetching " +:+ place +:+ " in " +:+ city +:+ ": "
                      +:+ exn_str e)).

Definition fetch_places_async (city : string) (place_types : list string)
    (api_key : string) (limit : Z) : M (list PlaceRecord) :=
  all_data_new ;;
  for_each place_types (query_batch city api_key limit) ;;
  get_all_data.

(** *** save_to_excel (lines 144-154) *)

(** [pd.DataFrame(data)]: one column per key, one row per record. *)
Definition DataFrame (data : list PlaceRecord) : Sheet :=
  map JStr record_keys :: map record_values data.

(** [df.to_excel(file_name, index=False)]: a call that fails can leave a
    partial file behind. *)
Definition to_excel (df : Sheet) (file_name : string) : M unit :=
  fun s => match excel_writer w file_name df with
           | Written => (Ok tt, set_files (files s ++ [(file_name, df)]) s)
           | WriteFailed e left_on_disk =>
               (Raise e,
                set_files (files s
                           ++ option_list (pair file_name <$> left_on_disk)) s)
           end.

Definition save_to_excel (data : list PlaceRecord) (file_name : string)
    : M unit :=
  match data with
  | _ :: _ =>
      let df := DataFrame data in
      to_excel df file_name ;;
      logging INFO ("✅ Data saved successfully to '" +:+ file_name +:+ "'")
  | [] => logging WARNING "⚠️ No data to save."
  end.

(** *** Main execution (lines 160-162) *)
Definition main : M unit :=
  place_data <- fetch_places_async CITY PLACE_TYPES API_KEY RESULTS_LIMIT ;;
  save_to_excel place_data OUTPUT_FILE.

End Program.

(** ** A concrete world

    A small world on which the program can be run: a search API that
    knows a few queries, some pages, an event loop that completes the
    requests out of launch order, and a tag-stripping stand-in for the
    HTML parser. *)
Module Demo.

Fixpoint lstrip (s : string) : string :=
  match s with
  | String c s' => if Ascii.is_space c then lstrip s' else s
  | EmptyString => EmptyString
  end.

Definition strip (s : string) : string :=
  String.rev (lstrip (String.rev (lstrip s))).

(** The text between the tags; [cur] is the current text, reversed. *)
Fixpoint text_nodes (in_tag : bool) (cur : string) (s : string) : list string :=
  match s with
  | EmptyString => [String.rev cur]
  | String c s' =>
      if in_tag
      then (if decide (c = ">"%char) then text_nodes false "" s'
            else text_nodes true cur s')
      else (if decide (c = "<"%char)
            then String.rev cur :: text_nodes true "" s'
            else text_nodes false (String c cur) s')
  end.

Definition tag_stripper (html : string) : list string :=
  filter (fun t => t ≠ "") (map strip (text_nodes false "" html)).

Definition fields (title link : string) : gmap string JSON :=
  <["title" := JStr title]> (<["link" := JStr link]> ∅).

Definition entry (title link : string) : JSON := JObj (fields title link).

Definition page (body : string) : exn + Response :=
  inr (mkResponse 200 "" (inr body) (inl (DecodeError "not JSON"))).

(** A search response whose body is [{"organic_results": organic}]. *)
Definition search_page (organic : JSON) : exn + Response :=
  inr (mkResponse 200 "" (inr "{}")
         (inr (JObj (<["organic_results" := organic]> ∅)))).

Fixpoint param (key : string) (ps : list (string * ParamValue))
    : option ParamValue :=
  match ps with
  | [] => None
  | (k, v) :: ps' => if decide (k = key) then Some v else param key ps'
  end.

Definition query_of (req : Request) : string :=
  match param "q" (req_params req) with
  | Some (PStr q) => q
  | _ => ""
  end.

Definition network (rid : nat) (req : Request) : exn + Response :=
  if decide (req_url req = "https://serpapi.com/search") then
    if decide (query_of req = "coffee shops in Lahore") then
      search_page (JArr [entry "A" "L1"; entry "B" "L2"])
    else if decide (query_of req = "tea houses in Lahore") then
      inr (mkResponse 500 "500, message='Internal Server Error'" (inr "")
             (inl (DecodeError "not JSON")))
    else if decide (query_of req = "bakeries in Lahore") then
      search_page (JArr [entry "C" "L3"; JObj (<["snippet" := JStr "fresh"]> ∅);
                         entry "D" "L4"])
    else if decide (query_of req = "parks in Lahore") then
      inr (mkResponse 200 "" (inr "{}") (inr (JObj ∅)))
    else inl (ClientError "unknown query")
  else if decide (req_url req = "L1") then page "<p>Hello</p>"
  else if decide (req_url req = "L2") then inl TimeoutError
  else if decide (req_url req = "L3") then page "<h1> Fresh  bread </h1><p>daily</p>"
  else if decide (req_url req = "L4") then
    inr (mkResponse 404 "404, message='Not Found', url='L4'" (inr "<p>gone</p>")
           (inl (DecodeError "not JSON")))
  else if decide (req_url req = "L5") then
    inr (mkResponse 304 "" (inr "cached") (inl (DecodeError "not JSON")))
  else inl (ClientError "cannot connect").

Definition world : World :=
  {| net := network;
     pick := fun _ => 5%nat;
     now_str := fun n => if decide (n = 0%nat) then "2024-01-01 00:00:00"
                         else "2024-01-01 00:00:01";
     stripped_strings := tag_stripper;
     excel_writer := fun name _ =>
       if decide (name = "/") then WriteFailed (OSError "is a directory") None
       else Written;
     py_repr := fun _ => "?";
     bad_url := fun _ => TypeError "Constructor parameter should be str" |}.

(** The same world with an event loop that completes the requests in
    launch order. *)
Definition world_in_order : World :=
  {| net := network; pick := fun _ => 0%nat; now_str := now_str world;
     stripped_strings := tag_stripper; excel_writer := excel_writer world;
     py_repr := py_repr world; bad_url := bad_url world |}.

(** A search API that answers every query with a body whose second entry
    is a string, not an object. *)
Definition malformed_network (rid : nat) (req : Request) : exn + Response :=
  if decide (req_url req = "https://serpapi.com/search") then
    search_page (JArr [entry "A" "L1"; JStr "oops"])
  else network rid req.

Definition malformed_world : World :=
  {| net := malformed_network; pick := pick world; now_str := now_str world;
     stripped_strings := tag_stripper; excel_writer := excel_writer world;
     py_repr := py_repr world; bad_url := bad_url world |}.

(** A search API whose only entry has a null title and a null link. *)
Definition null_network (rid : nat) (req : Request) : exn + Response :=
  if decide (req_url req = "https://serpapi.com/search") then
    search_page (JArr [JObj (<["title" := JNull]> (<["link" := JNull]> ∅))])
  else network rid req.

Definition null_world : World :=
  {| net := null_network; pick := pick world; now_str := now_str world;
     stripped_strings := tag_stripper; excel_writer := excel_writer world;
     py_repr := py_repr world; bad_url := bad_url world |}.

(** A writer that fails part-way and leaves the header row on disk. *)
Definition failing_writer_world : World :=
  {| net := network; pick := pick world; now_str := now_str world;
     stripped_strings := tag_stripper;
     excel_writer := fun _ sheet =>
       WriteFailed (OSError "disk full") (Some (take 1 sheet));
     py_repr := py_repr world; bad_url := bad_url world |}.

End Demo.

(** ** Observations used in the statements *)

(** The request line 103 sends for one place type. *)
Definition search_request (city place api_key : string) (limit : Z) : Request :=
  mkRequest "https://serpapi.com/search"
    (search_params (place +:+ " in " +:+ city) api_key limit) None.

(** The request line 44 sends for one URL. *)
Definition page_request (url : string) : Request := mkRequest url [] (Some 10).

(** The page fetch fails: no response, a status from 400 on, or a body
    that cannot be read. *)
Definition fetch_fails (w : World) (rid : nat) (url : string) : bool :=
  match net w rid (page_request url) with
  | inl _ => true
  | inr r => (400 <=? status r) || (if text r is inl _ then true else false)
  end.

(** A status outside 200-299. *)
Definition non_success (st : Z) : Prop := st < 200 \/ 300 <= st.

(** The warning line 49 logs for a failed fetch. *)
Definition fetch_warning (url : string) (e : exn) : LogEntry :=
  (WARNING, "Failed to fetch URL " +:+ url +:+ ": " +:+ exn_str e).

(** What a resolver returns and logs, observed on a fresh state. *)
Definition resolved (w : World) (rid : nat) (link : JSON) : Result string :=
  fst (extract_place_details_any w link rid init_state).

Definition resolver_log (w : World) (rid : nat) (link : JSON) : list LogEntry :=
  logs (snd (extract_place_details_any w link rid init_state)).

Definition detail_of (w : World) (rid : nat) (link : JSON) : string :=
  match resolved w rid link with
  | Ok d => d
  | Raise _ => ""
  end.

(** The slots of [gather] after the completion of coroutine [j]. *)
Definition fill_slot (w : World) (links : list JSON) (base : nat)
    (slots : list (option string)) (j : nat) : list (option string) :=
  match links !! j with
  | Some link => <[j := Some (detail_of w (base + j) link)]> slots
  | None => slots
  end.

(** The entries of a list up to its first entry that is not an object. *)
Fixpoint objects_prefix (entries : list JSON) : list (gmap string JSON) :=
  match entries with
  | JObj fields :: rest => fields :: objects_prefix rest
  | _ => []
  end.

(** The link, the records as created and the details of one batch. *)
Definition link_of (e : gmap string JSON) : JSON :=
  default (JStr "") (e !! "link").

Definition created (w : World) (city place : string) (c : nat)
    (entries : list (gmap string JSON)) : list PlaceRecord :=
  imap (fun i e =>
          {| City := city; Place_Type := place;
             Name := default (JStr "N/A") (e !! "title");
             Description := default (JStr "N/A") (e !! "snippet");
             Details := None; Link := link_of e;
             Fetched_On := now_str w (c + i) |}) entries.

Definition details_of (w : World) (base : nat) (links : list JSON)
    : list string :=
  imap (fun i link => detail_of w (base + i) link) links.

Definition merged (batch : list PlaceRecord) (details : list string)
    : list PlaceRecord :=
  zip_with (fun r d => with_Details (Some d) r) batch details.

Definition set_events (offset : nat) (items : list (nat * string))
    : list Mutation :=
  map (fun item => MSetDetails (offset + item.1) item.2) items.

(** The log lines of one query (lines 93 and 136). *)
Definition search_info (city place : string) : LogEntry :=
  (INFO, "Searching: " +:+ place +:+ " in " +:+ city).

Definition search_error (city place : string) (e : exn) : LogEntry :=
  (ERROR, "Error fetching " +:+ place +:+ " in " +:+ city +:+ ": "
          +:+ exn_str e).

(** What the search call of line 103-105 yields. *)
Definition search_outcome (w : World) (rid : nat) (req : Request)
    : exn + JSON :=
  match net w rid req with
  | inl e => inl e
  | inr r =>
      if 400 <=? status r
      then inl (ClientResponseError (status r) (error_text r))
      else json r
  end.

(** The entries the loop of line 108 runs over. *)
Definition search_entries (w : World) (rid : nat) (req : Request)
    : exn + list JSON :=
  match search_outcome w rid req with
  | inl e => inl e
  | inr results =>
      match dict_get results "organic_results" (JArr []) with
      | inl e => inl e
      | inr organic => py_iter organic
      end
  end.

(** The state after a query whose search failed with [e]. *)
Definition failed_state (city place : string) (e : exn) (s : State) : State :=
  set_logs (logs s ++ [search_info city place; search_error city place e])
    (set_issued (S (issued s)) s).

(** The records appended, and the details written to index [k], in order. *)
Definition appended (h : list Mutation) : list PlaceRecord :=
  omap (fun m => match m with MAppend r => Some r | _ => None end) h.

Definition writes_to (k : nat) (h : list Mutation) : list string :=
  omap (fun m => match m with
                 | MSetDetails i d => if decide (i = k) then Some d else None
                 | _ => None
                 end) h.

(** Performing the writes of a history again, from [data]; a write to a
    record that does not exist yet fails. *)
Fixpoint replay (h : list Mutation) (data : list PlaceRecord)
    : option (list PlaceRecord) :=
  match h with
  | [] => Some data
  | MAppend r :: h' => replay h' (data ++ [r])
  | MSetDetails k d :: h' =>
      match data !! k with
      | Some _ => replay h' (alter (with_Details (Some d)) k data)
      | None => None
      end
  end.

(** The life of every record in [data], read from the history [h]: the
    history rebuilds [data]; the k-th record was appended without detail,
    received exactly one detail, an output of the extractor, and is
    otherwise as appended; no index beyond [data] was written. *)
Definition settled (w : World) (data : list PlaceRecord) (h : list Mutation)
    : Prop :=
  replay h [] = Some data
  /\ length (appended h) = length data
  /\ forall k,
       match data !! k with
       | Some r =>
           exists r0 d html,
             appended h !! k = Some r0
             /\ Details r0 = None
             /\ writes_to k h = [d]
             /\ r = with_Details (Some d) r0
             /\ d = extract_details_from_html w html default_char_limit
       | None => writes_to k h = []
       end.

(** Every body the search API sends is an object whose "organic_results",
    when present, is a list of objects. *)
Definition api_well_formed (w : World) : Prop :=
  forall rid req resp body,
    req_url req = "https://serpapi.com/search" ->
    net w rid req = inr resp -> json resp = inr body ->
    exists fields objs,
      body = JObj fields
      /\ default (JArr []) (fields !! "organic_results") = JArr (JObj <$> objs).

(** The same world under another event loop. *)
Definition with_pick (pick' : nat -> nat) (w : World) : World :=
  {| net := net w; pick := pick'; now_str := now_str w;
     stripped_strings := stripped_strings w; excel_writer := excel_writer w;
     py_repr := py_repr w; bad_url := bad_url w |}.

(** ** Observations on whole runs *)

(** The exception [fetch_page] catches for a request, if any. *)
Definition fetch_error (w : World) (rid : nat) (url : string) : option exn :=
  match net w rid (page_request url) with
  | inl e => Some e
  | inr r =>
      if 400 <=? status r
      then Some (ClientResponseError (status r) (error_text r))
      else match text r with
           | inl e => Some e
           | inr _ => None
           end
  end.

(** The warning a resolver logs for a link, if any. *)
Definition link_warning (w : World) (rid : nat) (link : JSON) : option LogEntry :=
  match link with
  | JStr url => fetch_warning url <$> fetch_error w rid url
  | _ => Some (fetch_warning (py_str w link) (bad_url w link))
  end.

(** The log entries of the coroutines, in their order of completion. *)
Definition completion_log (w : World) (links : list JSON) (base : nat)
    (order : list nat) : list LogEntry :=
  flat_map (fun j => match links !! j with
                     | Some link => resolver_log w (base + j) link
                     | None => []
                     end) order.

Definition batch_warnings (w : World) (base : nat) (links : list JSON)
    : list LogEntry :=
  completion_log w links base
    (completion_order w base (seq 0 (length links)) (length links)).

(** The state a query leaves: after a loop over entries that are all
    objects; after a loop stopped by an entry that is not an object, where
    the records created so far stay without detail; and in general. *)
Definition after_success (w : World) (city place : string)
    (entries : list (gmap string JSON)) (s : State) : State :=
  let batch := created w city place (clock s) entries in
  let details := details_of w (S (issued s)) (map link_of entries) in
  mkState (all_data s ++ merged batch details)
          (history s ++ map MAppend batch
             ++ set_events (length (all_data s)) (enumerate details))
          (logs s ++ search_info city place
             :: batch_warnings w (S (issued s)) (map link_of entries))
          (S (issued s) + length entries) (clock s + length entries)
          (slept s ++ [DELAY_BETWEEN_QUERIES]) (files s).

Definition after_partial (w : World) (city place : string)
    (entries : list (gmap string JSON)) (e : exn) (s : State) : State :=
  let batch := created w city place (clock s) entries in
  mkState (all_data s ++ batch) (history s ++ map MAppend batch)
          (logs s ++ [search_info city place; search_error city place e])
          (S (issued s)) (clock s + length entries) (slept s) (files s).

Definition after_query (w : World) (city api_key : string) (limit : Z)
    (place : string) (s : State) : State :=
  match search_entries w (issued s) (search_request city place api_key limit) with
  | inl e => failed_state city place e s
  | inr entries =>
      match entries !! length (objects_prefix entries) with
      | None => after_success w city place (objects_prefix entries) s
      | Some v =>
          after_partial w city place (objects_prefix entries) (no_get_error v) s
      end
  end.

Definition after_queries (w : World) (city api_key : string) (limit : Z)
    (places : list string) (s : State) : State :=
  foldl (fun s place => after_query w city api_key limit place s) s places.

Definition level_eqb (a b : Level) : bool :=
  match a, b with
  | INFO, INFO | WARNING, WARNING | ERROR, ERROR => true
  | _, _ => false
  end.

(** The messages logged at one level, in order. *)
Definition messages_at (lvl : Level) (l : list LogEntry) : list string :=
  omap (fun e => if level_eqb e.1 lvl then Some e.2 else None) l.

(** Two states that agree on everything but the order of the log. *)
Definition same_but_log_order (s1 s2 : State) : Prop :=
  all_data s1 = all_data s2 /\ history s1 = history s2
  /\ issued s1 = issued s2 /\ clock s1 = clock s2
  /\ slept s1 = slept s2 /\ files s1 = files s2
  /\ logs s1 ≡ₚ logs s2.

(** * Properties *)

(** ** Strings *)

Lemma str_take_length n s :
  String.length (str_take n s) = Nat.min n (String.length s).
Proof.
  revert s; induction n as [|n IH]; intros [|c s]; simpl; auto.
Qed.

Lemma slice_to_length s stop :
  0 <= stop -> Z.of_nat (String.length (slice_to s stop)) <= stop.
Proof.
  intros Hstop. unfold slice_to.
  destruct (Z.ltb_spec stop 0) as [Hneg|_]; [lia|].
  rewrite str_take_length. lia.
Qed.

(** A negative limit drops characters from the end instead. *)
Lemma slice_to_negative_length s stop :
  stop < 0 ->
  String.length (slice_to s stop) = Z.to_nat (Z.of_nat (String.length s) + stop).
Proof.
  intros Hneg. unfold slice_to.
  destruct (Z.ltb_spec stop 0) as [_|Hpos]; [|lia].
  rewrite str_take_length. lia.
Qed.

(** ** The monad *)

Lemma bind_ok {A B} (m : M A) (k : A -> M B) s a s' :
  m s = (Ok a, s') -> bind m k s = k a s'.
Proof. unfold bind. intros ->. reflexivity. Qed.

Lemma bind_raise {A B} (m : M A) (k : A -> M B) s e s' :
  m s = (Raise e, s') -> bind m k s = (Raise e, s').
Proof. unfold bind. intros ->. reflexivity. Qed.

Lemma try_except_ok {A} (body : M A) handler s a s' :
  body s = (Ok a, s') -> try_except body handler s = (Ok a, s').
Proof. unfold try_except. intros ->. reflexivity. Qed.

Lemma try_except_raise {A} (body : M A) handler s e s' :
  body s = (Raise e, s') -> try_except body handler s = handler e s'.
Proof. unfold try_except. intros ->. reflexivity. Qed.

Lemma for_each_app {A} (l1 l2 : list A) body s :
  for_each (l1 ++ l2) body s = (for_each l1 body ;; for_each l2 body) s.
Proof.
  revert s; induction l1 as [|x l1 IH]; intros s; simpl.
  - reflexivity.
  - unfold bind. destruct (body x s) as [[[]|e] s1].
    + rewrite IH. reflexivity.
    + reflexivity.
Qed.

(** ** Text Extractor *)

(** C5. For every empty markup input, whatever the character limit,
    [extract_details_from_html] returns the placeholder ["N/A"]. *)
Theorem extract_details_empty (w : World) (char_limit : Z) :
  extract_details_from_html w "" char_limit = "N/A".
Proof. reflexivity. Qed.

Lemma extract_details_nonempty (w : World) html char_limit :
  html <> "" ->
  extract_details_from_html w html char_limit
  = slice_to (join " " (stripped_strings w html)) char_limit.
Proof.
  intros Hne. unfold extract_details_from_html.
  destruct (decide (html = "")); [contradiction | reflexivity].
Qed.

(** C4, as stated, fails: on empty markup the placeholder is returned
    whole, so with a limit of 2 the output has 3 characters. *)
Lemma extract_details_exceeds_limit :
  ~ (forall (w : World) (html : string) (char_limit : Z),
       Z.of_nat (String.length (extract_details_from_html w html char_limit))
       <= char_limit).
Proof.
  intros H. specialize (H Demo.world "" 2). simpl in H. lia.
Qed.

(** C4, amended. For every markup input and every character limit that is
    not negative, the output has at most that many characters, provided
    the markup is not empty or the limit is at least 3 (the length of the
    placeholder); the default limit 600 is such a limit. *)
Theorem extract_details_length (w : World) (html : string) (char_limit : Z) :
  0 <= char_limit ->
  html <> "" \/ 3 <= char_limit ->
  Z.of_nat (String.length (extract_details_from_html w html char_limit))
  <= char_limit.
Proof.
  intros Hpos Hcase. unfold extract_details_from_html.
  destruct (decide (html = "")) as [->|Hne].
  - destruct Hcase as [Hc|Hc]; [contradiction | simpl; lia].
  - apply slice_to_length, Hpos.
Qed.

Lemma extract_details_length_witness :
  Z.of_nat (String.length
    (extract_details_from_html Demo.world "<p>Hello</p>" 3)) <= 3
  /\ Z.of_nat (String.length
    (extract_details_from_html Demo.world "" default_char_limit))
     <= default_char_limit.
Proof.
  split.
  - apply (extract_details_length Demo.world "<p>Hello</p>" 3); [lia|].
    left. discriminate.
  - apply (extract_details_length Demo.world "" default_char_limit).
    + unfold default_char_limit. lia.
    + right. unfold default_char_limit. lia.
Defined.

Example extract_details_hello :
  extract_details_from_html Demo.world "<p>Hello</p>" 3 = "Hel".
Proof. reflexivity. Qed.

Example extract_details_negative_limit :
  extract_details_from_html Demo.world "<p>Hello</p>" (-2) = "Hel".
Proof. reflexivity. Qed.

(** ** Page Fetcher *)

Lemma fetch_page_run (w : World) url rid s :
  fetch_page w url rid s =
  match net w rid (page_request url) with
  | inl e => (Ok "", set_logs (logs s ++ [fetch_warning url e]) s)
  | inr r =>
      if 400 <=? status r
      then (Ok "", set_logs (logs s ++ [fetch_warning url
                      (ClientResponseError (status r) (error_text r))]) s)
      else match text r with
           | inr body => (Ok body, s)
           | inl e => (Ok "", set_logs (logs s ++ [fetch_warning url e]) s)
           end
  end.
Proof.
  unfold fetch_page, try_except, bind, session_get, page_request,
    raise_for_status, response_text, of_sum, ret, raise.
  destruct (net w rid _) as [e|r]; [reflexivity|]. cbn.
  destruct (400 <=? status r); [reflexivity|]. cbn.
  destruct (text r) as [e|body]; reflexivity.
Qed.

(** C3, as stated, fails: a response with a status outside 200-299 but
    below 400, here 304, is not rejected by [raise_for_status]; its body is
    returned and nothing is logged. *)
Lemma fetch_page_keeps_body_below_400 :
  ~ (forall (w : World) (url : string) (rid : nat) (s : State) (r : Response),
       net w rid (page_request url) = inr r ->
       non_success (status r) ->
       exists e,
         fetch_page w url rid s
         = (Ok "", set_logs (logs s ++ [fetch_warning url e]) s)).
Proof.
  intros H.
  destruct (H Demo.world "L5" 0%nat init_state
              (mkResponse 304 "" (inr "cached") (inl (DecodeError "not JSON")))
              eq_refl) as [e He].
  - right. cbn. lia.
  - vm_compute in He. discriminate He.
Qed.

(** C3, amended. For every URL, [fetch_page] sends one GET with a timeout
    of 10 seconds and then either returns the body of a response whose
    status is below 400 and logs nothing, or, when the request fails, times
    out, is answered with a status from 400 on or has an unreadable body,
    returns the empty string and logs one warning naming the URL and the
    reason.  In both cases it returns normally: no exception reaches the
    caller. *)
Theorem fetch_page_fail_soft (w : World) (url : string) (rid : nat) (s : State) :
  req_timeout (page_request url) = Some 10
  /\ ((exists r body,
         net w rid (page_request url) = inr r /\ status r < 400
         /\ text r = inr body /\ fetch_fails w rid url = false
         /\ fetch_page w url rid s = (Ok body, s))
      \/ (exists e,
            fetch_fails w rid url = true
            /\ fetch_page w url rid s
               = (Ok "", set_logs (logs s ++ [fetch_warning url e]) s)))
  /\ (exists body s', fetch_page w url rid s = (Ok body, s')).
Proof.
  split; [reflexivity|].
  rewrite fetch_page_run. unfold fetch_fails.
  destruct (net w rid (page_request url)) as [e|r].
  { split; [right; exists e; auto | eauto]. }
  destruct (Z.leb_spec 400 (status r)) as [Hbad|Hgood].
  { split; [right; eexists; split; [reflexivity|reflexivity] | eauto]. }
  destruct (text r) as [e|body] eqn:Htext.
  - split; [right; exists e; auto | eauto].
  - split; [left; exists r, body; repeat split; auto | eauto].
Qed.

Example fetch_page_timeout :
  fetch_page Demo.world "L2" 7%nat init_state
  = (Ok "", set_logs [(WARNING, "Failed to fetch URL L2: ")] init_state).
Proof. reflexivity. Qed.

Example fetch_page_not_found_warning :
  logs (snd (fetch_page Demo.world "L4" 7%nat init_state))
  = [(WARNING, "Failed to fetch URL L4: 404, message='Not Found', url='L4'")].
Proof. reflexivity. Qed.

Example fetch_page_not_found :
  fst (fetch_page Demo.world "L4" 7%nat init_state) = Ok "".
Proof. reflexivity. Qed.

(** ** Detail Resolver *)

Lemma fetch_page_returns (w : World) url rid s :
  exists html warns,
    fetch_page w url rid s = (Ok html, set_logs (logs s ++ warns) s)
    /\ (fetch_fails w rid url = true -> html = "").
Proof.
  rewrite fetch_page_run. unfold fetch_fails.
  assert (Hs : s = set_logs (logs s ++ []) s).
  { destruct s; unfold set_logs; simpl. rewrite app_nil_r. reflexivity. }
  destruct (net w rid (page_request url)) as [e|r].
  { eexists _, [_]. split; [reflexivity | auto]. }
  destruct (400 <=? status r).
  { eexists _, [_]. split; [reflexivity | auto]. }
  destruct (text r) as [e|body].
  - eexists _, [_]. split; [reflexivity | auto].
  - exists body, []. split; [congruence | discriminate].
Qed.

(** C6. For every link, [extract_place_details] is [fetch_page] followed by
    [extract_details_from_html] with the default limit, whose output it
    returns unchanged; it always returns normally, and for a link whose
    fetch fails it returns ["N/A"], the extractor's output on the empty
    string. *)
Theorem extract_place_details_composes
    (w : World) (link : string) (rid : nat) (s : State) :
  (exists html s',
     fetch_page w link rid s = (Ok html, s')
     /\ extract_place_details w link rid s
        = (Ok (extract_details_from_html w html default_char_limit), s'))
  /\ (fetch_fails w rid link = true ->
      exists s',
        extract_place_details w link rid s
        = (Ok (extract_details_from_html w "" default_char_limit), s')
        /\ extract_details_from_html w "" default_char_limit = "N/A").
Proof.
  destruct (fetch_page_returns w link rid s) as (html & warns & Hrun & Hfail).
  split.
  - exists html, (set_logs (logs s ++ warns) s). split; [exact Hrun|].
    unfold extract_place_details. rewrite (bind_ok _ _ _ _ _ Hrun). reflexivity.
  - intros Hf. exists (set_logs (logs s ++ warns) s). split; [|reflexivity].
    unfold extract_place_details. rewrite (bind_ok _ _ _ _ _ Hrun).
    rewrite (Hfail Hf). reflexivity.
Qed.

Lemma extract_place_details_composes_witness :
  exists s',
    extract_place_details Demo.world "L2" 2%nat init_state = (Ok "N/A", s').
Proof.
  destruct (extract_place_details_composes Demo.world "L2" 2%nat init_state)
    as [_ Hfail].
  destruct (Hfail eq_refl) as (s' & Hrun & HNA).
  exists s'. rewrite Hrun, HNA. reflexivity.
Defined.

Lemma resolver_run (w : World) link rid s :
  extract_place_details_any w link rid s
  = (resolved w rid link, set_logs (logs s ++ resolver_log w rid link) s).
Proof.
  unfold resolved, resolver_log, extract_place_details_any, bind.
  destruct link; try reflexivity.
  unfold fetch_page_any. rewrite !fetch_page_run.
  destruct (net w rid (page_request s0)) as [e|r]; [reflexivity|].
  destruct (400 <=? status r); [reflexivity|].
  destruct (text r) as [e|body]; [reflexivity|].
  cbn. rewrite app_nil_r. destruct s; reflexivity.
Qed.

Lemma resolved_ok (w : World) link rid :
  exists d html,
    resolved w rid link = Ok d
    /\ d = extract_details_from_html w html default_char_limit.
Proof.
  unfold resolved, extract_place_details_any.
  destruct link; try (eexists _, ""; split; reflexivity).
  unfold fetch_page_any.
  destruct (fetch_page_returns w s rid init_state)
    as (html & warns & Hrun & _).
  rewrite (bind_ok _ _ _ _ _ Hrun). eauto.
Qed.


Lemma resolved_with_pick (w : World) pick' link rid :
  resolved (with_pick pick' w) rid link = resolved w rid link.
Proof. reflexivity. Qed.

Lemma resolved_detail (w : World) link rid :
  resolved w rid link = Ok (detail_of w rid link).
Proof.
  unfold detail_of.
  destruct (resolved_ok w link rid) as (d & html & -> & _). reflexivity.
Qed.

Lemma extract_place_details_any_str (w : World) url :
  extract_place_details_any w (JStr url) = extract_place_details w url.
Proof. reflexivity. Qed.


(** ** The event loop *)

Lemma set_logs_set_logs l1 l2 s :
  set_logs (logs (set_logs (logs s ++ l1) s) ++ l2) (set_logs (logs s ++ l1) s)
  = set_logs (logs s ++ (l1 ++ l2)) s.
Proof. unfold set_logs; simpl. rewrite app_assoc. reflexivity. Qed.

Lemma set_logs_nil s : set_logs (logs s ++ []) s = s.
Proof. destruct s; unfold set_logs; simpl. rewrite app_nil_r. reflexivity. Qed.

(** Every pending request completes, exactly once. *)
Lemma completion_order_perm (w : World) fuel :
  forall c pending,
    length pending = fuel ->
    completion_order w c pending fuel ≡ₚ pending.
Proof.
  induction fuel as [|fuel IH]; intros c pending Hlen; simpl.
  - destruct pending; [reflexivity | discriminate].
  - assert (Hp : (pick w c mod length pending < length pending)%nat).
    { apply Nat.mod_upper_bound. rewrite Hlen. discriminate. }
    destruct (lookup_lt_is_Some_2 _ _ Hp) as [j Hj]. rewrite Hj.
    transitivity (j :: delete (pick w c mod length pending)%nat pending).
    + constructor. apply IH.
      rewrite length_delete by eauto. rewrite Hlen. simpl. lia.
    + symmetry. apply delete_Permutation, Hj.
Qed.

(** The order depends on the choices made from step [c] on only. *)
Lemma completion_order_ext (w1 w2 : World) fuel :
  forall c pending,
    (forall c', (c <= c')%nat -> pick w1 c' = pick w2 c') ->
    completion_order w1 c pending fuel = completion_order w2 c pending fuel.
Proof.
  induction fuel as [|fuel IH]; intros c pending Hext; simpl; [reflexivity|].
  rewrite (Hext c) by lia.
  destruct (pending !! _); [|reflexivity].
  f_equal. apply IH. intros c' Hc'. apply Hext. lia.
Qed.

(** Every order of completion is the choice of some event loop. *)
Lemma completion_order_any (w : World) (order : list nat) :
  forall pending c,
    order ≡ₚ pending ->
    exists pick',
      completion_order (with_pick pick' w) c pending (length pending) = order.
Proof.
  induction order as [|j order IH]; intros pending c Hperm.
  - apply Permutation_nil_l in Hperm as <-. exists (fun _ => 0%nat). reflexivity.
  - assert (Hin : j ∈ pending) by (rewrite <- Hperm; left).
    apply list_elem_of_lookup in Hin as [p Hp].
    assert (Hplt : (p < length pending)%nat) by (eapply lookup_lt_Some; eauto).
    assert (Hrest : order ≡ₚ delete p pending).
    { apply (Permutation_cons_inv (a := j)).
      rewrite Hperm. apply delete_Permutation, Hp. }
    destruct (IH (delete p pending) (S c) Hrest) as [pick' Hpick].
    exists (fun c' => if decide (c' = c) then p else pick' c').
    destruct pending as [|x pending]; [simpl in Hplt; lia|].
    cbn [length completion_order with_pick pick].
    rewrite decide_True by reflexivity.
    rewrite Nat.mod_small by exact Hplt.
    rewrite Hp. f_equal.
    rewrite <- Hpick.
    rewrite length_delete by eauto. cbn [length]. rewrite Nat.sub_1_r; simpl.
    apply completion_order_ext. intros c' Hc'. simpl.
    rewrite decide_False by lia. reflexivity.
Qed.

Section Gather.

Variable w : World.
Variable links : list JSON.
Variable base : nat.

Let tasks : list (Coroutine string) := map (extract_place_details_any w) links.

Lemma complete_run (order : list nat) :
  forall slots s,
    complete tasks base order slots s
    = (Ok (foldl (fill_slot w links base) slots order),
       set_logs (logs s ++ completion_log w links base order) s).
Proof.
  induction order as [|j order IH]; intros slots s; simpl.
  - unfold ret. rewrite set_logs_nil. reflexivity.
  - unfold tasks, fill_slot at 2. rewrite list_lookup_fmap.
    destruct (links !! j) as [link|]; simpl.
    + unfold bind. rewrite resolver_run, resolved_detail.
      fold tasks. rewrite IH, set_logs_set_logs. reflexivity.
    + apply IH.
Qed.

Lemma fill_slots_length (order : list nat) :
  forall slots,
    length (foldl (fill_slot w links base) slots order) = length slots.
Proof.
  induction order as [|j order IH]; intros slots; simpl; [reflexivity|].
  rewrite IH. unfold fill_slot.
  destruct (links !! j); [apply length_insert | reflexivity].
Qed.

Lemma fill_slots_keep (order : list nat) j link :
  links !! j = Some link ->
  forall slots,
    slots !! j = Some (Some (detail_of w (base + j) link)) ->
    foldl (fill_slot w links base) slots order !! j
    = Some (Some (detail_of w (base + j) link)).
Proof.
  intros Hlink.
  induction order as [|j' order IH]; intros slots Hslot; simpl; [exact Hslot|].
  apply IH. unfold fill_slot.
  destruct (links !! j') as [link'|] eqn:Hlink'; [|exact Hslot].
  destruct (decide (j' = j)) as [->|Hne].
  - rewrite Hlink in Hlink'. injection Hlink' as <-.
    apply list_lookup_insert_eq. eapply lookup_lt_Some, Hslot.
  - rewrite list_lookup_insert_ne by exact Hne. exact Hslot.
Qed.

Lemma fill_slots_done (order : list nat) j link :
  links !! j = Some link ->
  j ∈ order ->
  forall slots,
    (j < length slots)%nat ->
    foldl (fill_slot w links base) slots order !! j
    = Some (Some (detail_of w (base + j) link)).
Proof.
  intros Hlink.
  induction order as [|j' order IH]; intros Hin slots Hlen; simpl.
  - inversion Hin.
  - destruct (decide (j' = j)) as [->|Hne].
    + apply fill_slots_keep; [exact Hlink|].
      unfold fill_slot. rewrite Hlink.
      apply list_lookup_insert_eq, Hlen.
    + apply IH.
      * apply elem_of_cons in Hin as [Heq|Hin]; [congruence | exact Hin].
      * unfold fill_slot. destruct (links !! j'); [|exact Hlen].
        rewrite length_insert. exact Hlen.
Qed.

(** [gather] returns the results in the order of the coroutines, whatever
    the order of completion; only the log depends on the latter. *)
Lemma gather_run (s : State) :
  base = issued s ->
  gather w tasks s
  = (Ok (details_of w base links),
     set_logs (logs s ++ batch_warnings w base links)
       (set_issued (base + length links) s)).
Proof.
  intros Hbase. unfold gather, bind, launch. rewrite <- Hbase.
  assert (Hn : length tasks = length links) by apply length_map.
  rewrite Hn.
  set (order := completion_order w base (seq 0 (length links)) (length links)).
  rewrite complete_run. unfold ret. fold order.
  change (completion_log w links base order) with (batch_warnings w base links).
  f_equal. f_equal.
  set (slots := foldl _ _ _).
  assert (Hslots : slots = Some <$> details_of w base links).
  { apply list_eq. intros j. unfold details_of.
    rewrite list_lookup_fmap, list_lookup_imap.
    destruct (links !! j) as [link|] eqn:Hlink; simpl.
    - apply fill_slots_done; [exact Hlink| |].
      + unfold order. rewrite completion_order_perm by apply length_seq.
        apply elem_of_seq. apply lookup_lt_Some in Hlink. lia.
      + rewrite length_replicate. eapply lookup_lt_Some, Hlink.
    - apply lookup_ge_None. apply lookup_ge_None in Hlink.
      unfold slots. rewrite fill_slots_length, length_replicate. exact Hlink. }
  rewrite Hslots. clear.
  induction (details_of w base links) as [|d l IH]; simpl; [reflexivity|].
  f_equal. exact IH.
Qed.

End Gather.

(** ** Creating and merging the records of a batch *)

Lemma created_cons (w : World) city place c e entries :
  created w city place c (e :: entries)
  = {| City := city; Place_Type := place;
       Name := default (JStr "N/A") (e !! "title");
       Description := default (JStr "N/A") (e !! "snippet");
       Details := None; Link := link_of e; Fetched_On := now_str w c |}
    :: created w city place (S c) entries.
Proof.
  unfold created. rewrite imap_cons. rewrite Nat.add_0_r. f_equal.
  apply imap_ext. intros i e' _. simpl. do 2 f_equal. lia.
Qed.

(** The loop over the entries creates a record for every entry up to the
    first one that is not an object, where it raises. *)
Lemma create_records_loop (w : World) city place entries :
  forall acc s,
    for_fold entries acc (create_record w city place) s
    = (match entries !! length (objects_prefix entries) with
       | None =>
           Ok (acc ++ map (extract_place_details_any w)
                        (map link_of (objects_prefix entries)))
       | Some v => Raise (no_get_error v)
       end,
       mkState
         (all_data s ++ created w city place (clock s) (objects_prefix entries))
         (history s
            ++ map MAppend (created w city place (clock s) (objects_prefix entries)))
         (logs s) (issued s) (clock s + length (objects_prefix entries))
         (slept s) (files s)).
Proof.
  assert (Hstay : forall s,
            s = mkState (all_data s ++ []) (history s ++ []) (logs s)
                  (issued s) (clock s + 0) (slept s) (files s)).
  { intros s. rewrite !app_nil_r, Nat.add_0_r. destruct s; reflexivity. }
  induction entries as [|e entries IH]; intros acc s.
  - simpl. unfold ret. rewrite app_nil_r. f_equal. apply Hstay.
  - destruct e;
      try (cbn [for_fold objects_prefix length lookup list_lookup];
           unfold bind, create_record, bind, of_sum, dict_get, raise;
           cbn [created imap map]; f_equal; apply Hstay).
    cbn [for_fold objects_prefix length lookup list_lookup].
    unfold bind at 1. unfold create_record at 1.
    unfold bind, of_sum, dict_get, datetime_now, all_data_append, ret.
    cbn [fst snd].
    rewrite IH. rewrite created_cons. cbn.
    rewrite <- !app_assoc. cbn.
    replace (S (clock s + length (objects_prefix entries)))
      with (clock s + S (length (objects_prefix entries)))%nat by lia.
    destruct (entries !! length (objects_prefix entries)); reflexivity.
Qed.

Lemma create_records_run (w : World) city place entries s :
  create_records w city place entries s
  = (match entries !! length (objects_prefix entries) with
     | None =>
         Ok (map (extract_place_details_any w)
               (map link_of (objects_prefix entries)))
     | Some v => Raise (no_get_error v)
     end,
     mkState
       (all_data s ++ created w city place (clock s) (objects_prefix entries))
       (history s
          ++ map MAppend (created w city place (clock s) (objects_prefix entries)))
       (logs s) (issued s) (clock s + length (objects_prefix entries))
       (slept s) (files s)).
Proof. unfold create_records. apply create_records_loop. Qed.

Lemma objects_prefix_all objs : objects_prefix (JObj <$> objs) = objs.
Proof. induction objs as [|e objs IH]; simpl; [reflexivity | f_equal; exact IH]. Qed.

Lemma objects_prefix_all_lookup objs :
  (JObj <$> objs) !! length (objects_prefix (JObj <$> objs)) = None.
Proof.
  rewrite objects_prefix_all. apply lookup_ge_None.
  rewrite length_fmap. lia.
Qed.

Lemma py_index_from_end (len n i : nat) :
  (i < n)%nat -> (n <= len)%nat ->
  py_index len (- Z.of_nat n + Z.of_nat i) = Some (len - n + i)%nat.
Proof.
  intros Hi Hn. unfold py_index.
  rewrite (proj2 (Z.ltb_lt _ _)) by lia.
  rewrite (proj2 (Z.leb_le _ _)) by lia.
  rewrite (proj2 (Z.ltb_lt _ _)) by lia.
  simpl. f_equal. lia.
Qed.

Lemma merge_details_loop (n : nat) (pre : list PlaceRecord) ds :
  forall k done batch s,
    all_data s = pre ++ done ++ batch ->
    length done = k ->
    length batch = length ds ->
    n = (k + length ds)%nat ->
    for_each (enumerate_from k ds) (merge_detail n) s
    = (Ok tt,
       set_data (pre ++ done ++ merged batch ds)
                (history s ++ set_events (length pre) (enumerate_from k ds)) s).
Proof.
  induction ds as [|d ds IH]; intros k done batch s Hdata Hk Hbatch Hn.
  - destruct batch; [|discriminate]. simpl. unfold ret, set_data.
    rewrite <- Hdata, app_nil_r. destruct s; reflexivity.
  - destruct batch as [|r batch]; [discriminate|].
    cbn [enumerate_from for_each]. unfold bind at 1.
    unfold merge_detail at 1, all_data_set_details.
    rewrite (py_index_from_end _ n k).
    2: { simpl in Hn. lia. }
    2: { rewrite Hdata, !length_app. simpl in *. lia. }
    assert (Hidx : (length (all_data s) - n + k = length (pre ++ done) + 0)%nat).
    { rewrite Hdata, !length_app. simpl in *. lia. }
    rewrite Hidx, Hdata, app_assoc, alter_app_r. cbn [alter list_alter].
    rewrite (IH (S k) (done ++ [with_Details (Some d) r]) batch).
    + unfold set_data. cbn. unfold set_events. cbn.
      rewrite <- !app_assoc. cbn.
      rewrite length_app, Nat.add_0_r, Hk. reflexivity.
    + cbn. rewrite <- !app_assoc. reflexivity.
    + rewrite length_app, Hk. simpl. lia.
    + simpl in Hbatch. lia.
    + simpl in Hn. lia.
Qed.

Lemma merge_details_run ds pre batch s :
  all_data s = pre ++ batch ->
  length batch = length ds ->
  merge_details ds s
  = (Ok tt,
     set_data (pre ++ merged batch ds)
              (history s ++ set_events (length pre) (enumerate ds)) s).
Proof.
  intros Hdata Hlen. unfold merge_details, enumerate.
  rewrite (merge_details_loop (length ds) pre ds 0 [] batch); auto.
Qed.

(** ** One query *)

Lemma created_length (w : World) city place c entries :
  length (created w city place c entries) = length entries.
Proof. apply length_imap. Qed.

Lemma details_of_length (w : World) base links :
  length (details_of w base links) = length links.
Proof. apply length_imap. Qed.

(** Lines 103-108: what the code does up to the start of the loop. *)
Lemma search_front (w : World) req (k : list JSON -> M unit) s :
  (rid <- fresh_rid ;;
   resp <- session_get w rid req ;;
   raise_for_status resp ;;
   results <- response_json resp ;;
   organic <- of_sum (dict_get results "organic_results" (JArr [])) ;;
   entries <- of_sum (py_iter organic) ;;
   k entries) s
  = match search_entries w (issued s) req with
    | inl e => (Raise e, set_issued (S (issued s)) s)
    | inr entries => k entries (set_issued (S (issued s)) s)
    end.
Proof.
  unfold search_entries, search_outcome.
  unfold bind at 1. unfold fresh_rid at 1.
  unfold bind at 1. unfold session_get.
  destruct (net w (issued s) req) as [e|resp]; [reflexivity|].
  cbn [of_sum]. unfold ret at 1.
  unfold bind at 1. unfold raise_for_status.
  destruct (400 <=? status resp); [reflexivity|].
  unfold ret at 1. unfold bind at 1. unfold response_json.
  destruct (json resp) as [e|results]; [reflexivity|].
  cbn [of_sum]. unfold ret at 1. unfold bind at 1.
  destruct (dict_get results "organic_results" (JArr [])) as [e|organic];
    [reflexivity|].
  cbn [of_sum]. unfold ret at 1. unfold bind at 1.
  destruct (py_iter organic) as [e|entries]; reflexivity.
Qed.

(** The state a query leaves, on every path. *)
Lemma query_batch_run (w : World) city api_key limit place s :
  query_batch w city api_key limit place s
  = (Ok tt, after_query w city api_key limit place s).
Proof.
  unfold query_batch. unfold bind at 1. unfold logging at 1.
  unfold try_except. rewrite search_front.
  change (issued (set_logs _ s)) with (issued s).
  fold (search_request city place api_key limit).
  unfold after_query.
  destruct (search_entries w (issued s) _) as [e|entries].
  { unfold logging, failed_state. cbn. rewrite <- app_assoc. reflexivity. }
  set (s1 := set_issued (S (issued s))
               (set_logs (logs s ++ [(INFO, "Searching: " +:+ place +:+ " in " +:+ city)]) s)).
  unfold bind at 1. rewrite create_records_run.
  set (objs := objects_prefix entries).
  destruct (entries !! length objs) as [v|].
  { unfold logging, after_partial, s1. cbn. rewrite <- app_assoc. reflexivity. }
  set (batch := created w city place (clock s1) objs).
  set (s2 := mkState _ _ _ _ _ _ _).
  unfold bind at 1.
  rewrite (gather_run w (map link_of objs) (S (issued s)) s2 eq_refl).
  set (details := details_of w (S (issued s)) (map link_of objs)).
  set (s3 := set_logs _ _).
  assert (Hlen : length batch = length details).
  { unfold batch, details.
    rewrite created_length, details_of_length, length_map. reflexivity. }
  unfold bind at 1.
  rewrite (merge_details_run details (all_data s) batch s3 eq_refl Hlen).
  unfold asyncio_sleep, after_success, s3, s2, s1, set_data, set_slept,
    set_logs, set_issued.
  cbn. rewrite <- !app_assoc. cbn.
  rewrite length_map. reflexivity.
Qed.

Lemma search_outcome_of_ok (w : World) rid req resp results :
  net w rid req = inr resp -> status resp < 400 -> json resp = inr results ->
  search_outcome w rid req = inr results.
Proof.
  intros Hnet Hstatus Hjson. unfold search_outcome. rewrite Hnet.
  rewrite (proj2 (Z.leb_gt _ _)) by exact Hstatus. exact Hjson.
Qed.

(** A query whose search fails, before the loop: nothing but the log and
    the request counter changes. *)
Lemma query_batch_failure (w : World) city api_key limit place s e :
  search_entries w (issued s) (search_request city place api_key limit) = inl e ->
  query_batch w city api_key limit place s
  = (Ok tt, failed_state city place e s).
Proof.
  intros Hout. rewrite query_batch_run. unfold after_query.
  rewrite Hout. reflexivity.
Qed.

(** A query whose search answers with an object whose "organic_results" is
    absent or a list of objects. *)
Lemma query_batch_success (w : World) city api_key limit place s
    resp fields objs :
  net w (issued s) (search_request city place api_key limit) = inr resp ->
  status resp < 400 ->
  json resp = inr (JObj fields) ->
  default (JArr []) (fields !! "organic_results") = JArr (JObj <$> objs) ->
  query_batch w city api_key limit place s
  = (Ok tt, after_success w city place objs s).
Proof.
  intros Hnet Hstatus Hjson Horganic.
  rewrite query_batch_run. unfold after_query, search_entries.
  rewrite (search_outcome_of_ok _ _ _ _ _ Hnet Hstatus Hjson).
  cbn [dict_get]. rewrite Horganic. cbn [py_iter].
  rewrite objects_prefix_all_lookup, objects_prefix_all. reflexivity.
Qed.

Lemma for_each_query_run (w : World) city api_key limit places :
  forall s,
    for_each places (query_batch w city api_key limit) s
    = (Ok tt, after_queries w city api_key limit places s).
Proof.
  induction places as [|place places IH]; intros s; simpl; [reflexivity|].
  unfold bind. rewrite query_batch_run. apply IH.
Qed.

Lemma fetch_places_async_run (w : World) city places api_key limit s0 :
  fetch_places_async w city places api_key limit s0
  = (Ok (all_data (after_queries w city api_key limit places (set_data [] [] s0))),
     after_queries w city api_key limit places (set_data [] [] s0)).
Proof.
  unfold fetch_places_async. unfold bind at 1. unfold all_data_new at 1.
  unfold bind at 1. rewrite for_each_query_run. reflexivity.
Qed.

Lemma after_queries_app (w : World) city api_key limit before after s :
  after_queries w city api_key limit (before ++ after) s
  = after_queries w city api_key limit after
      (after_queries w city api_key limit before s).
Proof. apply foldl_app. Qed.

(** Every pass of the loop over [place_types] is a run of [query_batch],
    from the state the earlier passes left. *)
Lemma fetch_places_async_step (w : World) city api_key limit
    (before after : list string) (place : string) (s0 : State) :
  fetch_places_async w city (before ++ place :: after) api_key limit s0
  = (query_batch w city api_key limit place ;;
     for_each after (query_batch w city api_key limit) ;;
     get_all_data)
      (snd (for_each before (query_batch w city api_key limit)
              (snd (all_data_new s0)))).
Proof.
  rewrite fetch_places_async_run, after_queries_app.
  rewrite for_each_query_run. cbn [snd all_data_new].
  unfold bind at 1. rewrite query_batch_run.
  unfold bind at 1. rewrite for_each_query_run. reflexivity.
Qed.

(** ** The records of a batch *)

Lemma created_lookup (w : World) city place c entries i e :
  entries !! i = Some e ->
  created w city place c entries !! i
  = Some {| City := city; Place_Type := place;
            Name := default (JStr "N/A") (e !! "title");
            Description := default (JStr "N/A") (e !! "snippet");
            Details := None; Link := link_of e;
            Fetched_On := now_str w (c + i) |}.
Proof.
  intros He. unfold created. rewrite list_lookup_imap, He. reflexivity.
Qed.

Lemma details_of_lookup (w : World) base entries i e :
  entries !! i = Some e ->
  details_of w base (map link_of entries) !! i
  = Some (detail_of w (base + i) (link_of e)).
Proof.
  intros He. unfold details_of.
  rewrite list_lookup_imap, list_lookup_fmap, He. reflexivity.
Qed.

Lemma merged_lookup (w : World) city place c base entries i e :
  entries !! i = Some e ->
  merged (created w city place c entries)
         (details_of w base (map link_of entries)) !! i
  = Some {| City := city; Place_Type := place;
            Name := default (JStr "N/A") (e !! "title");
            Description := default (JStr "N/A") (e !! "snippet");
            Details := Some (detail_of w (base + i) (link_of e));
            Link := link_of e;
            Fetched_On := now_str w (c + i) |}.
Proof.
  intros He. unfold merged. rewrite lookup_zip_with.
  rewrite (created_lookup _ _ _ _ _ _ _ He), (details_of_lookup _ _ _ _ _ He).
  reflexivity.
Qed.

Lemma merged_length (w : World) city place c base entries :
  length (merged (created w city place c entries)
                 (details_of w base (map link_of entries)))
  = length entries.
Proof.
  unfold merged. rewrite length_zip_with.
  rewrite created_length, details_of_length, length_map. lia.
Qed.

Lemma merged_lookup_inv (w : World) city place c base entries i r :
  merged (created w city place c entries)
         (details_of w base (map link_of entries)) !! i = Some r ->
  exists e,
    entries !! i = Some e
    /\ r = {| City := city; Place_Type := place;
              Name := default (JStr "N/A") (e !! "title");
              Description := default (JStr "N/A") (e !! "snippet");
              Details := Some (detail_of w (base + i) (link_of e));
              Link := link_of e;
              Fetched_On := now_str w (c + i) |}.
Proof.
  intros Hr.
  assert (Hi : (i < length entries)%nat).
  { rewrite <- (merged_length w city place c base entries).
    eapply lookup_lt_Some, Hr. }
  destruct (lookup_lt_is_Some_2 _ _ Hi) as [e He].
  exists e. split; [exact He|].
  rewrite (merged_lookup _ _ _ _ _ _ _ _ He) in Hr. congruence.
Qed.

Lemma created_lookup_inv (w : World) city place c entries i r :
  created w city place c entries !! i = Some r ->
  exists e,
    entries !! i = Some e
    /\ r = {| City := city; Place_Type := place;
              Name := default (JStr "N/A") (e !! "title");
              Description := default (JStr "N/A") (e !! "snippet");
              Details := None; Link := link_of e;
              Fetched_On := now_str w (c + i) |}.
Proof.
  intros Hr.
  assert (Hi : (i < length entries)%nat).
  { rewrite <- (created_length w city place c entries).
    eapply lookup_lt_Some, Hr. }
  destruct (lookup_lt_is_Some_2 _ _ Hi) as [e He].
  exists e. split; [exact He|].
  rewrite (created_lookup _ _ _ _ _ _ _ He) in Hr. congruence.
Qed.

Lemma after_query_extends (w : World) city api_key limit place s :
  exists new,
    all_data (after_query w city api_key limit place s) = all_data s ++ new.
Proof.
  unfold after_query. destruct (search_entries _ _ _) as [e|entries].
  - exists []. rewrite app_nil_r. reflexivity.
  - destruct (entries !! _); eexists; reflexivity.
Qed.

Lemma after_queries_extends (w : World) city api_key limit places :
  forall s,
    exists new,
      all_data (after_queries w city api_key limit places s) = all_data s ++ new.
Proof.
  induction places as [|place places IH]; intros s; simpl.
  - exists []. rewrite app_nil_r. reflexivity.
  - destruct (after_query_extends w city api_key limit place s) as [new1 H1].
    destruct (IH (after_query w city api_key limit place s)) as [new2 H2].
    exists (new1 ++ new2). rewrite H2, H1, app_assoc. reflexivity.
Qed.

(** The records of a batch whose search succeeded are in the result of the
    loop, at the positions following the records present when the query of
    the batch starts. *)
Lemma batch_records_in_result
    (w : World) city api_key limit mid place rest s resp fields objs i obj :
  let t := after_queries w city api_key limit mid s in
  net w (issued t) (search_request city place api_key limit) = inr resp ->
  status resp < 400 ->
  json resp = inr (JObj fields) ->
  default (JArr []) (fields !! "organic_results") = JArr (JObj <$> objs) ->
  objs !! i = Some obj ->
  exists r d,
    all_data (after_queries w city api_key limit (mid ++ place :: rest) s)
      !! (length (all_data t) + i)%nat = Some r
    /\ City r = city /\ Place_Type r = place
    /\ Name r = default (JStr "N/A") (obj !! "title")
    /\ Description r = default (JStr "N/A") (obj !! "snippet")
    /\ Link r = default (JStr "") (obj !! "link")
    /\ Details r = Some d.
Proof.
  intros t Hnet Hstatus Hjson Horg Hobj.
  pose proof (query_batch_success w city api_key limit place t resp fields
                objs Hnet Hstatus Hjson Horg) as Hq.
  rewrite query_batch_run in Hq. injection Hq as Hq.
  destruct (after_queries_extends w city api_key limit rest
              (after_query w city api_key limit place t)) as [new Hnew].
  rewrite after_queries_app. fold t.
  cbn [after_queries foldl].
  fold (after_queries w city api_key limit rest
          (after_query w city api_key limit place t)).
  rewrite Hnew, Hq. cbn [all_data after_success].
  eexists _, _. split.
  - apply lookup_app_l_Some. rewrite lookup_app_r by lia.
    replace (length (all_data t) + i - length (all_data t))%nat with i by lia.
    apply (merged_lookup _ _ _ _ _ _ _ _ Hobj).
  - repeat split.
Qed.

(** ** Partial failure *)

(** C2. When the search request of a place type fails (no response, or a
    status from 400 on), the query logs one error, leaves the record list
    and its history exactly as they were, and the loop goes on with the
    remaining place types from there; this holds wherever the place type
    stands in the list given to [fetch_places_async].  The records of the
    other place types are produced: the result of the run starts with what
    the run returns for the place types before the failed one, and for
    every other place type of the list, before or after the failed one,
    whose search answers with a list of objects, the result holds one
    record per entry, with that entry's values and a detail, at the
    positions following the records present when its query starts. *)
Theorem search_failure_isolated
    (w : World) (city api_key : string) (limit : Z)
    (place : string) (before after : list string) (s0 : State) :
  let s := snd (for_each before (query_batch w city api_key limit)
                  (snd (all_data_new s0))) in
  (exists e, net w (issued s) (search_request city place api_key limit) = inl e)
  \/ (exists resp,
        net w (issued s) (search_request city place api_key limit) = inr resp
        /\ 400 <= status resp) ->
  exists e,
    let s' := failed_state city place e s in
    query_batch w city api_key limit place s = (Ok tt, s')
    /\ logs s' = logs s ++ [search_info city place; search_error city place e]
    /\ all_data s' = all_data s
    /\ history s' = history s
    /\ (forall rest,
          for_each (place :: rest) (query_batch w city api_key limit) s
          = for_each rest (query_batch w city api_key limit) s')
    /\ fetch_places_async w city (before ++ place :: after) api_key limit s0
       = (for_each after (query_batch w city api_key limit) ;; get_all_data) s'
    /\ fetch_places_async w city before api_key limit s0 = (Ok (all_data s), s)
    /\ (exists new sf,
          fetch_places_async w city (before ++ place :: after) api_key limit s0
          = (Ok (all_data s ++ new), sf))
    /\ (forall mid place' rest resp' fields objs i obj,
          before ++ place :: after = mid ++ place' :: rest ->
          let t := snd (for_each mid (query_batch w city api_key limit)
                          (snd (all_data_new s0))) in
          net w (issued t) (search_request city place' api_key limit) = inr resp' ->
          status resp' < 400 ->
          json resp' = inr (JObj fields) ->
          default (JArr []) (fields !! "organic_results") = JArr (JObj <$> objs) ->
          objs !! i = Some obj ->
          exists data sf r d,
            fetch_places_async w city (before ++ place :: after) api_key limit s0
            = (Ok data, sf)
            /\ data !! (length (all_data t) + i)%nat = Some r
            /\ City r = city /\ Place_Type r = place'
            /\ Name r = default (JStr "N/A") (obj !! "title")
            /\ Description r = default (JStr "N/A") (obj !! "snippet")
            /\ Link r = default (JStr "") (obj !! "link")
            /\ Details r = Some d).
Proof.
  intros s Hfail.
  assert (Hs : s = after_queries w city api_key limit before (set_data [] [] s0)).
  { unfold s. rewrite for_each_query_run. reflexivity. }
  assert (Hout : exists e,
    search_entries w (issued s) (search_request city place api_key limit) = inl e).
  { unfold search_entries, search_outcome.
    destruct Hfail as [[e ->]|(resp & -> & Hbad)]; [eauto|].
    rewrite (proj2 (Z.leb_le _ _)) by exact Hbad. eauto. }
  destruct Hout as [e Hout]. exists e. intros s'.
  pose proof (query_batch_failure w city api_key limit place s e Hout) as Hrun.
  fold s' in Hrun.
  assert (Hs' : after_query w city api_key limit place s = s').
  { pose proof (query_batch_run w city api_key limit place s) as Hq.
    rewrite Hrun in Hq. congruence. }
  assert (Hfull : fetch_places_async w city (before ++ place :: after)
                    api_key limit s0
                  = (Ok (all_data (after_queries w city api_key limit after s')),
                     after_queries w city api_key limit after s')).
  { rewrite fetch_places_async_run, after_queries_app, <- Hs.
    cbn [after_queries foldl]. rewrite Hs'. reflexivity. }
  split; [exact Hrun|]. split; [reflexivity|].
  split; [reflexivity|]. split; [reflexivity|]. split; [|split; [|split; [|split]]].
  - intros rest. simpl. rewrite (bind_ok _ _ _ _ _ Hrun). reflexivity.
  - rewrite Hfull. unfold bind. rewrite for_each_query_run. reflexivity.
  - rewrite fetch_places_async_run, <- Hs. reflexivity.
  - destruct (after_queries_extends w city api_key limit after s') as [new Hnew].
    exists new, (after_queries w city api_key limit after s').
    rewrite Hfull, Hnew. reflexivity.
  - intros mid place' rest resp' fields objs i obj Hsplit t
      Hnet Hstatus Hjson Horg Hobj.
    assert (Ht : t = after_queries w city api_key limit mid (set_data [] [] s0)).
    { unfold t. rewrite for_each_query_run. reflexivity. }
    rewrite Ht in Hnet.
    destruct (batch_records_in_result w city api_key limit mid place' rest
                (set_data [] [] s0) resp' fields objs i obj
                Hnet Hstatus Hjson Horg Hobj) as (r & d & Hr & Hrest).
    rewrite fetch_places_async_run, Hsplit, Ht.
    eexists _, _, r, d. split; [reflexivity|]. split; [exact Hr | exact Hrest].
Qed.

Lemma search_failure_isolated_witness :
  exists data sf r,
    fetch_places_async Demo.world "Lahore"
      (["coffee shops"] ++ "tea houses" :: ["bakeries"]) "key" 2 init_state
    = (Ok data, sf)
    /\ data !! 2%nat = Some r
    /\ Place_Type r = "bakeries" /\ Name r = JStr "C".
Proof.
  destruct (search_failure_isolated Demo.world "Lahore" "key" 2 "tea houses"
              ["coffee shops"] ["bakeries"] init_state) as (e & H).
  - right. eexists. split; [vm_compute; reflexivity | cbn; lia].
  - destruct H as (_ & _ & _ & _ & _ & _ & _ & _ & Hothers).
    destruct (Hothers ["coffee shops"; "tea houses"] "bakeries" []
                (mkResponse 200 "" (inr "{}")
                   (inr (JObj (<["organic_results" :=
                      JArr [Demo.entry "C" "L3";
                            JObj (<["snippet" := JStr "fresh"]> ∅);
                            Demo.entry "D" "L4"]]> ∅))))
                (<["organic_results" :=
                     JArr [Demo.entry "C" "L3";
                           JObj (<["snippet" := JStr "fresh"]> ∅);
                           Demo.entry "D" "L4"]]> ∅)
                [Demo.fields "C" "L3"; <["snippet" := JStr "fresh"]> ∅;
                 Demo.fields "D" "L4"]
                0%nat (Demo.fields "C" "L3") eq_refl)
      as (data & sf & r & d & Hrun & Hr & _ & Hplace & Hname & _).
    + vm_compute. reflexivity.
    + cbn. lia.
    + reflexivity.
    + reflexivity.
    + reflexivity.
    + exists data, sf, r. split; [exact Hrun|].
      split; [exact Hr|]. split; [exact Hplace | exact Hname].
Defined.

(** The records of the other place types are still produced. *)
Example search_failure_others_produced :
  map Name (all_data (snd (fetch_places_async Demo.world "Lahore"
                             ["coffee shops"; "tea houses"; "bakeries"]
                             "key" 2 init_state)))
  = [JStr "A"; JStr "B"; JStr "C"; JStr "N/A"; JStr "D"].
Proof. vm_compute. reflexivity. Qed.

(** ** Positional merge *)




(** The order of completion is visible in the log only. *)
Example completion_order_matters_for_log_only :
  let run w := snd (fetch_places_async w "Lahore" ["bakeries"] "key" 2 init_state) in
  all_data (run Demo.world) = all_data (run Demo.world_in_order)
  /\ logs (run Demo.world) <> logs (run Demo.world_in_order).
Proof. vm_compute. split; [reflexivity | intros H; discriminate H]. Qed.

(** ** Record creation *)

Lemma appended_app h1 h2 : appended (h1 ++ h2) = appended h1 ++ appended h2.
Proof. apply omap_app. Qed.

Lemma appended_appends rs : appended (map MAppend rs) = rs.
Proof. induction rs as [|r rs IH]; simpl; [reflexivity | f_equal; exact IH]. Qed.

Lemma appended_set_events offset items : appended (set_events offset items) = [].
Proof. induction items as [|x items IH]; simpl; [reflexivity | exact IH]. Qed.




(** A title that is present but null is stored as it is, and a null link is
    handed to the resolver, whose fetch fails. *)
Example null_title_and_link :
  map (fun r => (Name r, Link r, Details r))
    (all_data (snd (fetch_places_async Demo.null_world "Lahore" ["coffee shops"]
                      "key" 2 init_state)))
  = [(JNull, JNull, Some "N/A")].
Proof. vm_compute. reflexivity. Qed.

(** ** The result limit *)




Example no_organic_results :
  all_data (snd (fetch_places_async Demo.world "Lahore" ["parks"] "key" 2
                   init_state)) = [].
Proof. vm_compute. reflexivity. Qed.

(** ** Exporter *)

(** C8. Given an empty record list, [save_to_excel] writes no file and logs
    one warning.  Given a non-empty list, the sheet it hands to the writer
    has the seven attribute names as header row, followed by exactly one
    row per record, in order, whose seven cells are the record's city,
    place type, name, description, detail (empty while unset), link and
    timestamp; when the writer accepts the sheet the file is written once
    and success is logged, and when the writer fails the failure reaches
    the caller, no success is logged, and the path holds whatever the
    writer left there. *)
Theorem save_to_excel_rows
    (w : World) (data : list PlaceRecord) (file_name : string) (s : State) :
  (data = [] ->
   exists s',
     save_to_excel w data file_name s = (Ok tt, s')
     /\ files s' = files s
     /\ logs s' = logs s ++ [(WARNING, "⚠️ No data to save.")])
  /\ (data <> [] ->
      let sheet := DataFrame data in
      (exists rows,
         sheet = [JStr "City"; JStr "Place Type"; JStr "Name";
                  JStr "Description"; JStr "Details"; JStr "Link";
                  JStr "Fetched On"] :: rows
         /\ length rows = length data
         /\ forall i r,
              data !! i = Some r ->
              rows !! i
              = Some [JStr (City r); JStr (Place_Type r); Name r;
                      Description r;
                      match Details r with Some d => JStr d | None => JNull end;
                      Link r; JStr (Fetched_On r)])
      /\ (excel_writer w file_name sheet = Written ->
          exists s',
            save_to_excel w data file_name s = (Ok tt, s')
            /\ files s' = files s ++ [(file_name, sheet)]
            /\ logs s' = logs s ++ [(INFO, "✅ Data saved successfully to '"
                                           +:+ file_name +:+ "'")])
      /\ (forall e left_on_disk,
            excel_writer w file_name sheet = WriteFailed e left_on_disk ->
            exists s',
              save_to_excel w data file_name s = (Raise e, s')
              /\ logs s' = logs s
              /\ files s'
                 = files s ++ option_list (pair file_name <$> left_on_disk))).
Proof.
  split.
  - intros ->. eexists. split; [reflexivity|]. split; reflexivity.
  - intros Hne sheet. split; [|split].
    + exists (map record_values data). split; [reflexivity|].
      split; [apply length_map|].
      intros i r Hr. rewrite list_lookup_fmap, Hr.
      unfold record_values. simpl. destruct (Details r); reflexivity.
    + intros Hok. destruct data as [|r data]; [contradiction|].
      unfold save_to_excel, bind, to_excel. fold sheet. rewrite Hok.
      eexists. split; [reflexivity|]. split; reflexivity.
    + intros e left_on_disk Herr. destruct data as [|r data]; [contradiction|].
      unfold save_to_excel, bind, to_excel. fold sheet. rewrite Herr.
      eexists. split; [reflexivity|]. split; reflexivity.
Qed.

Lemma save_to_excel_rows_witness :
  exists s',
    save_to_excel Demo.world
      (all_data (snd (fetch_places_async Demo.world "Lahore" ["coffee shops"]
                        "key" 2 init_state)))
      "Coffee_Shops_Lahore.xlsx" init_state = (Ok tt, s')
    /\ length <$> (snd <$> files s') = [3%nat].
Proof.
  set (data := all_data _).
  destruct (save_to_excel_rows Demo.world data "Coffee_Shops_Lahore.xlsx"
              init_state) as [_ Hfull].
  destruct Hfull as (_ & Hwrite & _).
  - vm_compute. discriminate.
  - destruct Hwrite as (s' & Hrun & Hfiles & _); [reflexivity|].
    exists s'. split; [exact Hrun|]. rewrite Hfiles. vm_compute. reflexivity.
Defined.

(** A writer that fails part-way leaves its partial file behind. *)
Example save_to_excel_partial_file :
  files (snd (main Demo.failing_writer_world init_state))
  = [("Coffee_Shops_Lahore.xlsx",
      [[JStr "City"; JStr "Place Type"; JStr "Name"; JStr "Description";
        JStr "Details"; JStr "Link"; JStr "Fetched On"]])].
Proof. vm_compute. reflexivity. Qed.

(** ** The life of a record *)

(** C9. The code does not keep this invariant.  Line 120 creates the record
    with no detail, "to be updated after the async task"; when a later
    entry of the same response is not an object, line 109 raises on it, the
    [except] of line 135 logs the error, the resolvers are never awaited
    and line 130 never runs.  On a response whose entries are an object and
    a string, [fetch_places_async] returns the record of the object with
    its detail still unset: no write was made to it, and no request was
    issued for its link. *)
Theorem detail_left_unset :
  exists r s',
    fetch_places_async Demo.malformed_world "Lahore" ["coffee shops"] "key" 2
      init_state = (Ok [r], s')
    /\ Name r = JStr "A" /\ Link r = JStr "L1"
    /\ Details r = None
    /\ history s' = [MAppend r]
    /\ writes_to 0 (history s') = []
    /\ logs s'
       = [(INFO, "Searching: coffee shops in Lahore");
          (ERROR, "Error fetching coffee shops in Lahore: "
                  +:+ "'str' object has no attribute 'get'")]
    /\ issued s' = 1%nat.
Proof.
  eexists _, _. split; [vm_compute; reflexivity|].
  repeat split.
Qed.

(** The record without detail reaches the spreadsheet: its Details cell is
    empty. *)
Example unset_detail_is_exported :
  files (snd (main Demo.malformed_world init_state))
  = [("Coffee_Shops_Lahore.xlsx",
      [[JStr "City"; JStr "Place Type"; JStr "Name"; JStr "Description";
        JStr "Details"; JStr "Link"; JStr "Fetched On"];
       [JStr "Lahore"; JStr "coffee shops"; JStr "A"; JStr "N/A"; JNull;
        JStr "L1"; JStr "2024-01-01 00:00:00"]])].
Proof. vm_compute. reflexivity. Qed.

(** * Further properties of the code *)

(** ** Text Extractor: truncation *)

Lemma str_take_all n s : (String.length s <= n)%nat -> str_take n s = s.
Proof.
  revert n; induction s as [|c s IH]; intros [|n] Hlen; simpl in *;
    try reflexivity; try lia.
  f_equal. apply IH. lia.
Qed.

Lemma str_take_empty n : str_take n "" = "".
Proof. destruct n; reflexivity. Qed.

Lemma str_take_prefix n s : exists rest, s = str_take n s +:+ rest.
Proof.
  revert n; induction s as [|c s IH]; intros [|n]; simpl.
  - exists "". reflexivity.
  - exists "". reflexivity.
  - exists (String c s). reflexivity.
  - destruct (IH n) as [rest Hrest]. exists rest.
    change (String c s = String c (str_take n s +:+ rest)).
    f_equal. exact Hrest.
Qed.

Lemma slice_to_prefix s stop : exists rest, s = slice_to s stop +:+ rest.
Proof. unfold slice_to. destruct (stop <? 0); apply str_take_prefix. Qed.

(** X1. For non-empty markup the output is always a prefix of the text of
    the page (the text nodes joined by single spaces), for every limit, and
    it is the whole text when the text has at most [char_limit] characters:
    nothing is cut when the text fits. *)
Theorem extract_details_prefix_of_text
    (w : World) (html : string) (char_limit : Z) :
  html <> "" ->
  let text := join " " (stripped_strings w html) in
  (exists rest, text = extract_details_from_html w html char_limit +:+ rest)
  /\ (Z.of_nat (String.length text) <= char_limit ->
      extract_details_from_html w html char_limit = text).
Proof.
  intros Hne text. rewrite extract_details_nonempty by exact Hne. fold text.
  split; [apply slice_to_prefix|].
  intros Hfit. unfold slice_to.
  destruct (Z.ltb_spec char_limit 0) as [Hneg|_]; [lia|].
  apply str_take_all. lia.
Qed.

Lemma extract_details_prefix_of_text_witness :
  extract_details_from_html Demo.world "<p>Hello</p>" 600 = "Hello".
Proof.
  destruct (extract_details_prefix_of_text Demo.world "<p>Hello</p>" 600)
    as [_ Hfit]; [discriminate|].
  rewrite Hfit; [reflexivity | vm_compute; discriminate].
Defined.

(** X2. Markup that is not empty but has no text node gives the empty
    string, not the placeholder, whatever the limit: ["N/A"] marks an empty
    page body only. *)
Theorem extract_details_no_text (w : World) (html : string) (char_limit : Z) :
  html <> "" ->
  stripped_strings w html = [] ->
  extract_details_from_html w html char_limit = "".
Proof.
  intros Hne Hnone. rewrite extract_details_nonempty by exact Hne.
  rewrite Hnone. unfold join, slice_to. simpl.
  destruct (char_limit <? 0); apply str_take_empty.
Qed.

Lemma extract_details_no_text_witness :
  extract_details_from_html Demo.world "<p> </p>" 600 = "".
Proof.
  apply (extract_details_no_text Demo.world "<p> </p>" 600);
    [discriminate | reflexivity].
Defined.

(** X3. With a negative limit [-k] the extractor does not bound the output:
    for non-empty markup it returns the text without its last [k]
    characters (nothing when the text is shorter). *)
Theorem extract_details_negative_limit_drops
    (w : World) (html : string) (char_limit : Z) :
  html <> "" ->
  char_limit < 0 ->
  let text := join " " (stripped_strings w html) in
  extract_details_from_html w html char_limit
  = str_take (Z.to_nat (Z.of_nat (String.length text) + char_limit)) text
  /\ String.length (extract_details_from_html w html char_limit)
     = Z.to_nat (Z.of_nat (String.length text) + char_limit).
Proof.
  intros Hne Hneg text. rewrite extract_details_nonempty by exact Hne.
  fold text. split.
  - unfold slice_to. rewrite (proj2 (Z.ltb_lt _ _)) by exact Hneg. reflexivity.
  - apply slice_to_negative_length, Hneg.
Qed.

Lemma extract_details_negative_limit_drops_witness :
  String.length (extract_details_from_html Demo.world "<p>Hello</p>" (-2))
  = 3%nat.
Proof.
  destruct (extract_details_negative_limit_drops Demo.world "<p>Hello</p>" (-2))
    as [_ Hlen]; [discriminate | lia |].
  rewrite Hlen. reflexivity.
Defined.

(** ** Query Runner: other failures of a query *)

(** X4. When the search is answered with a good status but its body is not
    readable as JSON, the query ends like one whose request failed: one
    error is logged, no record is added, nothing is written to the list,
    and the query does not sleep. *)
Theorem search_decode_failure_isolated
    (w : World) (city api_key : string) (limit : Z) (place : string)
    (s : State) (resp : Response) (e : exn) :
  net w (issued s) (search_request city place api_key limit) = inr resp ->
  status resp < 400 ->
  json resp = inl e ->
  exists s',
    query_batch w city api_key limit place s = (Ok tt, s')
    /\ logs s' = logs s ++ [search_info city place; search_error city place e]
    /\ all_data s' = all_data s
    /\ history s' = history s
    /\ slept s' = slept s
    /\ issued s' = S (issued s).
Proof.
  intros Hnet Hstatus Hjson.
  exists (failed_state city place e s). split; [|repeat split].
  apply query_batch_failure. unfold search_entries, search_outcome.
  rewrite Hnet. rewrite (proj2 (Z.leb_gt _ _)) by exact Hstatus.
  rewrite Hjson. reflexivity.
Qed.

Lemma search_decode_failure_isolated_witness :
  exists s',
    query_batch
      (mkWorld (fun _ _ => inr (mkResponse 200 "" (inr "<html>")
                                  (inl (DecodeError "not JSON"))))
               (fun _ => 0%nat) (fun _ => "") Demo.tag_stripper
               (fun _ _ => Written) (fun _ => "") (fun _ => TypeError ""))
      "Lahore" "key" 5 "coffee shops" init_state = (Ok tt, s')
    /\ all_data s' = [].
Proof.
  destruct (search_decode_failure_isolated
              (mkWorld (fun _ _ => inr (mkResponse 200 "" (inr "<html>")
                                          (inl (DecodeError "not JSON"))))
                       (fun _ => 0%nat) (fun _ => "") Demo.tag_stripper
                       (fun _ _ => Written) (fun _ => "")
                       (fun _ => TypeError ""))
              "Lahore" "key" 5 "coffee shops" init_state
              (mkResponse 200 "" (inr "<html>") (inl (DecodeError "not JSON")))
              (DecodeError "not JSON"))
    as (s' & Hrun & _ & Hdata & _).
  - reflexivity.
  - cbn. lia.
  - reflexivity.
  - exists s'. split; [exact Hrun | exact Hdata].
Defined.

(** The other shapes of a body that stop a query before its loop. *)
Example search_body_not_an_object :
  forall (w : World) city api_key limit place s resp items,
    net w (issued s) (search_request city place api_key limit) = inr resp ->
    status resp < 400 ->
    json resp = inr (JArr items) ->
    query_batch w city api_key limit place s
    = (Ok tt, failed_state city place (no_get_error (JArr items)) s).
Proof.
  intros w city api_key limit place s resp items Hnet Hstatus Hjson.
  apply query_batch_failure. unfold search_entries.
  rewrite (search_outcome_of_ok _ _ _ _ _ Hnet Hstatus Hjson). reflexivity.
Qed.

Example search_organic_results_null :
  forall (w : World) city api_key limit place s resp fields,
    net w (issued s) (search_request city place api_key limit) = inr resp ->
    status resp < 400 ->
    json resp = inr (JObj fields) ->
    fields !! "organic_results" = Some JNull ->
    query_batch w city api_key limit place s
    = (Ok tt, failed_state city place
                (TypeError "'NoneType' object is not iterable") s).
Proof.
  intros w city api_key limit place s resp fields Hnet Hstatus Hjson Hnull.
  apply query_batch_failure. unfold search_entries.
  rewrite (search_outcome_of_ok _ _ _ _ _ Hnet Hstatus Hjson).
  cbn [dict_get]. rewrite Hnull. reflexivity.
Qed.

(** X5. After a successful search whose "organic_results" is a list of
    objects, the record of every entry whose page fetch fails (its link is
    not a string, or the request for it fails) holds the placeholder
    ["N/A"] as detail, at its own position in the batch. *)
Theorem failed_fetch_gives_placeholder
    (w : World) (city api_key : string) (limit : Z) (place : string)
    (s : State) (resp : Response) (fields : gmap string JSON)
    (entries : list (gmap string JSON)) (i : nat) (e : gmap string JSON) :
  net w (issued s) (search_request city place api_key limit) = inr resp ->
  status resp < 400 ->
  json resp = inr (JObj fields) ->
  default (JArr []) (fields !! "organic_results") = JArr (JObj <$> entries) ->
  entries !! i = Some e ->
  (forall url, default (JStr "") (e !! "link") = JStr url ->
               fetch_fails w (S (issued s) + i) url = true) ->
  exists s' r,
    query_batch w city api_key limit place s = (Ok tt, s')
    /\ all_data s' !! (length (all_data s) + i)%nat = Some r
    /\ Link r = default (JStr "") (e !! "link")
    /\ Details r = Some "N/A".
Proof.
  intros Hnet Hstatus Hjson Horg He Hfail.
  rewrite (query_batch_success _ _ _ _ _ _ _ _ _ Hnet Hstatus Hjson Horg).
  eexists _, _. split; [reflexivity|]. cbn [all_data after_success].
  rewrite lookup_app_r by lia.
  replace (length (all_data s) + i - length (all_data s))%nat with i by lia.
  rewrite (merged_lookup _ _ _ _ _ _ _ _ He).
  split; [reflexivity|]. split; [reflexivity|]. cbn [Details]. f_equal.
  unfold detail_of, resolved, extract_place_details_any.
  unfold link_of in *.
  destruct (default (JStr "") (e !! "link")) as [| | | |url| |] eqn:Hlink;
    try reflexivity.
  unfold fetch_page_any.
  destruct (fetch_page_returns w url (S (issued s) + i) init_state)
    as (html & warns & Hrun & Hempty).
  rewrite (bind_ok _ _ _ _ _ Hrun). cbn.
  rewrite (Hempty (Hfail url eq_refl)). reflexivity.
Qed.

Lemma failed_fetch_gives_placeholder_witness :
  exists s' r,
    query_batch Demo.world "Lahore" "key" 2 "coffee shops" init_state
    = (Ok tt, s')
    /\ all_data s' !! 1%nat = Some r
    /\ Link r = JStr "L2" /\ Details r = Some "N/A".
Proof.
  destruct (failed_fetch_gives_placeholder Demo.world "Lahore" "key" 2
              "coffee shops" init_state
              (mkResponse 200 "" (inr "{}")
                 (inr (JObj (<["organic_results" :=
                      JArr [Demo.entry "A" "L1"; Demo.entry "B" "L2"]]> ∅))))
              (<["organic_results" :=
                   JArr [Demo.entry "A" "L1"; Demo.entry "B" "L2"]]> ∅)
              [Demo.fields "A" "L1"; Demo.fields "B" "L2"]
              1%nat (Demo.fields "B" "L2"))
    as (s' & r & Hrun & Hr & Hlink & Hdet).
  - vm_compute. reflexivity.
  - cbn. lia.
  - reflexivity.
  - reflexivity.
  - reflexivity.
  - intros url Hurl. vm_compute in Hurl. injection Hurl as <-.
    vm_compute. reflexivity.
  - exists s', r. split; [exact Hrun|]. split; [exact Hr|].
    split; [exact Hlink | exact Hdet].
Defined.

(** ** Query Runner: the record list over a whole run *)

(** X6. The records of a place type are never touched by the queries of
    later place types: the result of [fetch_places_async] on a list of
    place types extended at the end starts with the result it has on the
    shorter list.  What follows are the records of the added place types:
    it is what the loop over them appends when it is run from the state
    the shorter run ends in, and for every added place type whose search
    answers with a list of objects it holds one record per entry, with
    that entry's values and a detail, at the positions following the
    records present when its query starts. *)
Theorem later_queries_keep_earlier_records
    (w : World) (city : string) (before after : list string)
    (api_key : string) (limit : Z) (s0 : State) :
  exists data new s1 s2,
    fetch_places_async w city before api_key limit s0 = (Ok data, s1)
    /\ fetch_places_async w city (before ++ after) api_key limit s0
       = (Ok (data ++ new), s2)
    /\ (for_each after (query_batch w city api_key limit) ;; get_all_data) s1
       = (Ok (data ++ new), s2)
    /\ (forall mid place rest resp fields objs i obj,
          after = mid ++ place :: rest ->
          let t := snd (for_each mid (query_batch w city api_key limit) s1) in
          net w (issued t) (search_request city place api_key limit) = inr resp ->
          status resp < 400 ->
          json resp = inr (JObj fields) ->
          default (JArr []) (fields !! "organic_results") = JArr (JObj <$> objs) ->
          objs !! i = Some obj ->
          exists r d,
            (length data <= length (all_data t))%nat
            /\ new !! (length (all_data t) - length data + i)%nat = Some r
            /\ City r = city /\ Place_Type r = place
            /\ Name r = default (JStr "N/A") (obj !! "title")
            /\ Description r = default (JStr "N/A") (obj !! "snippet")
            /\ Link r = default (JStr "") (obj !! "link")
            /\ Details r = Some d).
Proof.
  rewrite !fetch_places_async_run, after_queries_app.
  set (s1 := after_queries w city api_key limit before (set_data [] [] s0)).
  destruct (after_queries_extends w city api_key limit after s1) as [new Hnew].
  exists (all_data s1), new, s1, (after_queries w city api_key limit after s1).
  split; [reflexivity|]. rewrite <- Hnew. split; [reflexivity|].
  split; [unfold bind; rewrite for_each_query_run; reflexivity|].
  intros mid place rest resp fields objs i obj Hsplit t
    Hnet Hstatus Hjson Horg Hobj.
  assert (Ht : t = after_queries w city api_key limit mid s1).
  { unfold t. rewrite for_each_query_run. reflexivity. }
  rewrite Ht in Hnet.
  destruct (batch_records_in_result w city api_key limit mid place rest
              s1 resp fields objs i obj Hnet Hstatus Hjson Horg Hobj)
    as (r & d & Hr & Hrest).
  destruct (after_queries_extends w city api_key limit mid s1) as [got Hgot].
  rewrite <- Hsplit, Hnew, <- Ht in Hr.
  assert (Hlen : (length (all_data s1) <= length (all_data t))%nat).
  { rewrite Ht, Hgot, length_app. lia. }
  exists r, d. split; [exact Hlen|]. split; [|exact Hrest].
  rewrite lookup_app_r in Hr by lia.
  replace (length (all_data t) - length (all_data s1) + i)%nat
    with (length (all_data t) + i - length (all_data s1))%nat by lia.
  exact Hr.
Qed.

Lemma later_queries_keep_earlier_records_witness :
  exists data new s1 s2 r,
    fetch_places_async Demo.world "Lahore" ["coffee shops"] "key" 2 init_state
    = (Ok data, s1)
    /\ fetch_places_async Demo.world "Lahore" (["coffee shops"] ++ ["bakeries"])
         "key" 2 init_state
       = (Ok (data ++ new), s2)
    /\ new !! 0%nat = Some r
    /\ Place_Type r = "bakeries" /\ Name r = JStr "C".
Proof.
  destruct (later_queries_keep_earlier_records Demo.world "Lahore"
              ["coffee shops"] ["bakeries"] "key" 2 init_state)
    as (data & new & s1 & s2 & Hshort & Hlong & _ & Hnew).
  assert (Hs1 : s1 = snd (fetch_places_async Demo.world "Lahore"
                            ["coffee shops"] "key" 2 init_state))
    by (rewrite Hshort; reflexivity).
  assert (Hdata : data = all_data s1).
  { rewrite fetch_places_async_run in Hshort. injection Hshort as <- <-.
    reflexivity. }
  destruct (Hnew [] "bakeries" []
              (mkResponse 200 "" (inr "{}")
                 (inr (JObj (<["organic_results" :=
                    JArr [Demo.entry "C" "L3";
                          JObj (<["snippet" := JStr "fresh"]> ∅);
                          Demo.entry "D" "L4"]]> ∅))))
              (<["organic_results" :=
                   JArr [Demo.entry "C" "L3";
                         JObj (<["snippet" := JStr "fresh"]> ∅);
                         Demo.entry "D" "L4"]]> ∅)
              [Demo.fields "C" "L3"; <["snippet" := JStr "fresh"]> ∅;
               Demo.fields "D" "L4"]
              0%nat (Demo.fields "C" "L3") eq_refl)
    as (r & d & _ & Hr & _ & Hplace & Hname & _).
  - reflexivity.
  - cbn. lia.
  - reflexivity.
  - reflexivity.
  - reflexivity.
  - exists data, new, s1, s2, r. split; [exact Hshort|].
    split; [exact Hlong|]. split; [|split; [exact Hplace | exact Hname]].
    cbn [for_each snd] in Hr. rewrite Hdata in Hr.
    rewrite Nat.sub_diag in Hr. exact Hr.
Defined.

Lemma filter_resolved_merged (w : World) city place c base entries :
  filter (fun r => is_Some (Details r))
    (merged (created w city place c entries)
            (details_of w base (map link_of entries)))
  = merged (created w city place c entries)
           (details_of w base (map link_of entries)).
Proof.
  assert (H : Forall (fun r => is_Some (Details r))
                (merged (created w city place c entries)
                        (details_of w base (map link_of entries)))).
  { apply Forall_lookup. intros i r Hr.
    apply merged_lookup_inv in Hr as (e & _ & ->). cbn. eauto. }
  induction H as [|r l Hr Hl IH]; [reflexivity|].
  rewrite filter_cons_True by exact Hr. f_equal. exact IH.
Qed.

Lemma filter_resolved_created (w : World) city place c entries :
  filter (fun r => is_Some (Details r)) (created w city place c entries) = [].
Proof.
  assert (H : Forall (fun r => Details r = None)
                (created w city place c entries)).
  { apply Forall_lookup. intros i r Hr.
    apply created_lookup_inv in Hr as (e & _ & ->). reflexivity. }
  induction H as [|r l Hr Hl IH]; [reflexivity|].
  rewrite filter_cons_False; [exact IH|].
  rewrite Hr. intros [d Hd]. discriminate Hd.
Qed.

Lemma after_query_counters (w : World) city api_key limit place s :
  (issued (after_query w city api_key limit place s)
   + length (filter (fun r => is_Some (Details r)) (all_data s))
   = S (issued s)
     + length (filter (fun r => is_Some (Details r))
                 (all_data (after_query w city api_key limit place s))))%nat
  /\ (clock (after_query w city api_key limit place s) + length (all_data s)
      = clock s + length (all_data (after_query w city api_key limit place s)))%nat
  /\ files (after_query w city api_key limit place s) = files s.
Proof.
  unfold after_query. destruct (search_entries _ _ _) as [e|entries].
  - cbn. repeat split; lia.
  - destruct (entries !! _).
    + cbn. rewrite filter_app, filter_resolved_created, app_nil_r.
      rewrite length_app, created_length. repeat split; lia.
    + cbn. rewrite filter_app, filter_resolved_merged.
      rewrite !length_app, merged_length. repeat split; lia.
Qed.

Lemma after_queries_counters (w : World) city api_key limit places :
  forall s,
    (issued (after_queries w city api_key limit places s)
     + length (filter (fun r => is_Some (Details r)) (all_data s))
     = issued s + length places
       + length (filter (fun r => is_Some (Details r))
                   (all_data (after_queries w city api_key limit places s))))%nat
    /\ (clock (after_queries w city api_key limit places s) + length (all_data s)
        = clock s + length (all_data (after_queries w city api_key limit places s)))%nat
    /\ files (after_queries w city api_key limit places s) = files s.
Proof.
  induction places as [|place places IH]; intros s; simpl.
  - repeat split; lia.
  - destruct (after_query_counters w city api_key limit place s)
      as (Hi & Hc & Hf).
    destruct (IH (after_query w city api_key limit place s)) as (Hi' & Hc' & Hf').
    fold (after_queries w city api_key limit places
            (after_query w city api_key limit place s)).
    split; [lia|]. split; [lia|]. rewrite Hf', Hf. reflexivity.
Qed.

(** X7. A run calls [session.get] exactly once per place type plus once
    per returned record whose detail is set: nothing is retried, and a
    record that a query stopped by a malformed entry leaves without detail
    had no request made for its link. *)
Theorem one_request_per_query_and_resolved_record
    (w : World) (city : string) (place_types : list string)
    (api_key : string) (limit : Z) (s0 : State) :
  exists data s',
    fetch_places_async w city place_types api_key limit s0 = (Ok data, s')
    /\ issued s'
       = (issued s0 + length place_types
          + length (filter (fun r => is_Some (Details r)) data))%nat.
Proof.
  rewrite fetch_places_async_run. eexists _, _. split; [reflexivity|].
  destruct (after_queries_counters w city api_key limit place_types
              (set_data [] [] s0)) as (Hi & _).
  cbn in Hi. lia.
Qed.

Lemma after_query_timestamps (w : World) city api_key limit place c0 s :
  (forall k r, all_data s !! k = Some r -> Fetched_On r = now_str w (c0 + k)) ->
  clock s = (c0 + length (all_data s))%nat ->
  forall k r,
    all_data (after_query w city api_key limit place s) !! k = Some r ->
    Fetched_On r = now_str w (c0 + k).
Proof.
  intros Hold Hclock k r. unfold after_query.
  destruct (search_entries _ _ _) as [e|entries]; [apply Hold|].
  destruct (entries !! _).
  - cbn [all_data after_partial]. intros Hr.
    apply lookup_app_Some in Hr as [Hr|[Hk Hr]]; [apply Hold, Hr|].
    apply created_lookup_inv in Hr as (e & _ & ->). cbn [Fetched_On].
    rewrite Hclock. f_equal. lia.
  - cbn [all_data after_success]. intros Hr.
    apply lookup_app_Some in Hr as [Hr|[Hk Hr]]; [apply Hold, Hr|].
    apply merged_lookup_inv in Hr as (e & _ & ->). cbn [Fetched_On].
    rewrite Hclock. f_equal. lia.
Qed.

Lemma after_queries_timestamps (w : World) city api_key limit c0 places :
  forall s,
    (forall k r, all_data s !! k = Some r -> Fetched_On r = now_str w (c0 + k)) ->
    clock s = (c0 + length (all_data s))%nat ->
    forall k r,
      all_data (after_queries w city api_key limit places s) !! k = Some r ->
      Fetched_On r = now_str w (c0 + k).
Proof.
  induction places as [|place places IH]; intros s Hold Hclock; simpl.
  - exact Hold.
  - apply IH.
    + apply after_query_timestamps; assumption.
    + destruct (after_query_counters w city api_key limit place s) as (_ & Hc & _).
      lia.
Qed.

(** X8. The clock is read exactly once per returned record and at no other
    time, and the records are returned in the order of these readings: the
    k-th record of the result carries the k-th reading of the run. *)
Theorem one_clock_reading_per_record
    (w : World) (city : string) (place_types : list string)
    (api_key : string) (limit : Z) (s0 : State) :
  exists data s',
    fetch_places_async w city place_types api_key limit s0 = (Ok data, s')
    /\ clock s' = (clock s0 + length data)%nat
    /\ forall k r, data !! k = Some r ->
                   Fetched_On r = now_str w (clock s0 + k).
Proof.
  rewrite fetch_places_async_run. eexists _, _. split; [reflexivity|]. split.
  - destruct (after_queries_counters w city api_key limit place_types
                (set_data [] [] s0)) as (_ & Hc & _).
    cbn in Hc. lia.
  - apply after_queries_timestamps.
    + intros k r Hr. discriminate Hr.
    + cbn. lia.
Qed.

Lemma one_clock_reading_per_record_witness :
  exists data s',
    fetch_places_async Demo.world "Lahore" ["coffee shops"; "bakeries"] "key" 2
      init_state = (Ok data, s')
    /\ clock s' = 5%nat
    /\ Fetched_On <$> data !! 0%nat = Some "2024-01-01 00:00:00".
Proof.
  destruct (one_clock_reading_per_record Demo.world "Lahore"
              ["coffee shops"; "bakeries"] "key" 2 init_state)
    as (data & s' & Hrun & Hclock & Hstamp).
  assert (Hdata : data = all_data (snd (fetch_places_async Demo.world "Lahore"
                    ["coffee shops"; "bakeries"] "key" 2 init_state))).
  { rewrite Hrun. rewrite fetch_places_async_run in Hrun.
    injection Hrun as <- <-. reflexivity. }
  exists data, s'. split; [exact Hrun|]. split.
  - rewrite Hclock, Hdata. vm_compute. reflexivity.
  - destruct (data !! 0%nat) as [r|] eqn:Hr.
    + cbn. rewrite (Hstamp 0%nat r Hr). reflexivity.
    + rewrite Hdata in Hr. vm_compute in Hr. discriminate Hr.
Defined.

Lemma after_query_Forall (Q : PlaceRecord -> Prop)
    (w : World) city api_key limit place s :
  (forall e c d,
     (d = None \/ exists rid, d = Some (detail_of w rid (link_of e))) ->
     Q {| City := city; Place_Type := place;
          Name := default (JStr "N/A") (e !! "title");
          Description := default (JStr "N/A") (e !! "snippet");
          Details := d; Link := link_of e; Fetched_On := now_str w c |}) ->
  Forall Q (all_data s) ->
  Forall Q (all_data (after_query w city api_key limit place s)).
Proof.
  intros Hnew Hold. unfold after_query.
  destruct (search_entries _ _ _) as [e|entries]; [exact Hold|].
  destruct (entries !! _).
  - cbn [all_data after_partial]. apply Forall_app. split; [exact Hold|].
    apply Forall_lookup. intros i r Hr.
    apply created_lookup_inv in Hr as (e & _ & ->). apply Hnew. left. reflexivity.
  - cbn [all_data after_success]. apply Forall_app. split; [exact Hold|].
    apply Forall_lookup. intros i r Hr.
    apply merged_lookup_inv in Hr as (e & _ & ->). apply Hnew. right. eauto.
Qed.

Lemma after_queries_Forall (Q : PlaceRecord -> Prop)
    (w : World) city api_key limit places :
  (forall place e c d,
     place ∈ places ->
     (d = None \/ exists rid, d = Some (detail_of w rid (link_of e))) ->
     Q {| City := city; Place_Type := place;
          Name := default (JStr "N/A") (e !! "title");
          Description := default (JStr "N/A") (e !! "snippet");
          Details := d; Link := link_of e; Fetched_On := now_str w c |}) ->
  forall s,
    Forall Q (all_data s) ->
    Forall Q (all_data (after_queries w city api_key limit places s)).
Proof.
  induction places as [|place places IH]; intros Hnew s Hold; simpl.
  - exact Hold.
  - apply IH.
    + intros p e c d Hp. apply Hnew. right. exact Hp.
    + apply after_query_Forall; [|exact Hold].
      intros e c d. apply Hnew. left.
Qed.

Lemma extract_details_default_length (w : World) html :
  Z.of_nat (String.length (extract_details_from_html w html default_char_limit))
  <= default_char_limit.
Proof.
  unfold extract_details_from_html, default_char_limit.
  destruct (decide (html = "")); [cbn; lia|].
  apply slice_to_length. lia.
Qed.

(** X9. Every record [fetch_places_async] returns has the city it was
    called with and one of the place types it was given, and its detail,
    when it is set, has at most 600 characters. *)
Theorem returned_records_well_formed
    (w : World) (city : string) (place_types : list string)
    (api_key : string) (limit : Z) (s0 : State) :
  exists data s',
    fetch_places_async w city place_types api_key limit s0 = (Ok data, s')
    /\ Forall (fun r =>
                 City r = city
                 /\ Place_Type r ∈ place_types
                 /\ forall d, Details r = Some d ->
                              Z.of_nat (String.length d) <= 600) data.
Proof.
  rewrite fetch_places_async_run. eexists _, _. split; [reflexivity|].
  apply after_queries_Forall; [|constructor].
  intros place e c d Hplace Hd. cbn.
  split; [reflexivity|]. split; [exact Hplace|].
  intros d' Hd'. destruct Hd as [->|[rid ->]]; [discriminate|].
  injection Hd' as <-.
  destruct (resolved_ok w (link_of e) rid) as (d & html & Hres & ->).
  unfold detail_of. rewrite Hres. apply extract_details_default_length.
Qed.

Lemma returned_records_well_formed_witness :
  exists data s',
    fetch_places_async Demo.world "Lahore" ["bakeries"] "key" 2 init_state
    = (Ok data, s')
    /\ Forall (fun r => City r = "Lahore") data.
Proof.
  destruct (returned_records_well_formed Demo.world "Lahore" ["bakeries"]
              "key" 2 init_state) as (data & s' & Hrun & Hall).
  exists data, s'. split; [exact Hrun|].
  eapply Forall_impl; [exact Hall|]. intros r (Hcity & _). exact Hcity.
Defined.

(** ** Query Runner: the log and the throttle over a whole run *)

Lemma resolver_log_link_warning (w : World) rid link :
  resolver_log w rid link = option_list (link_warning w rid link).
Proof.
  unfold resolver_log, link_warning, extract_place_details_any, bind.
  destruct link; try reflexivity.
  unfold fetch_page_any, fetch_error. rewrite fetch_page_run.
  destruct (net w rid (page_request s)) as [e|r]; [reflexivity|].
  destruct (400 <=? status r); [reflexivity|].
  destruct (text r) as [e|body]; reflexivity.
Qed.

Lemma link_warning_level (w : World) rid link e :
  link_warning w rid link = Some e -> e.1 = WARNING.
Proof.
  unfold link_warning. destruct link; try (intros [= <-]; reflexivity).
  destruct (fetch_error w rid s); [intros [= <-]; reflexivity | discriminate].
Qed.

Lemma messages_at_app lvl l1 l2 :
  messages_at lvl (l1 ++ l2) = messages_at lvl l1 ++ messages_at lvl l2.
Proof. apply omap_app. Qed.

Lemma messages_at_completion_log lvl (w : World) links base order :
  lvl <> WARNING ->
  messages_at lvl (completion_log w links base order) = [].
Proof.
  intros Hlvl. induction order as [|j order IH]; [reflexivity|].
  unfold completion_log in *. cbn [flat_map].
  rewrite messages_at_app, IH, app_nil_r.
  destruct (links !! j) as [link|]; [|reflexivity].
  rewrite resolver_log_link_warning.
  destruct (link_warning w (base + j) link) as [e|] eqn:He; [|reflexivity].
  apply link_warning_level in He. destruct e as [l msg]. cbn in He. subst l.
  destruct lvl; [reflexivity | contradiction | reflexivity].
Qed.

Lemma after_query_infos (w : World) city api_key limit place s :
  messages_at INFO (logs (after_query w city api_key limit place s))
  = messages_at INFO (logs s) ++ ["Searching: " +:+ place +:+ " in " +:+ city].
Proof.
  unfold after_query. destruct (search_entries _ _ _) as [e|entries].
  - cbn [logs failed_state set_logs]. rewrite messages_at_app. reflexivity.
  - destruct (entries !! _).
    + cbn [logs after_partial]. rewrite messages_at_app. reflexivity.
    + cbn [logs after_success]. rewrite messages_at_app. f_equal.
      change (search_info city place :: ?l) with ([search_info city place] ++ l).
      rewrite messages_at_app.
      unfold batch_warnings.
      rewrite messages_at_completion_log by discriminate. reflexivity.
Qed.

(** X10. The run logs exactly one ["Searching: <place> in <city>"] line per
    place type, in the order of the list and whether the search then fails
    or not, and no other line at level INFO. *)
Theorem one_search_line_per_query
    (w : World) (city : string) (place_types : list string)
    (api_key : string) (limit : Z) (s0 : State) :
  exists data s',
    fetch_places_async w city place_types api_key limit s0 = (Ok data, s')
    /\ messages_at INFO (logs s')
       = messages_at INFO (logs s0)
         ++ map (fun place => "Searching: " +:+ place +:+ " in " +:+ city)
              place_types.
Proof.
  rewrite fetch_places_async_run. eexists _, _. split; [reflexivity|].
  change (logs s0) with (logs (set_data [] [] s0)).
  generalize (set_data [] [] s0) as s.
  induction place_types as [|place places IH]; intros s; simpl.
  - rewrite app_nil_r. reflexivity.
  - fold (after_queries w city api_key limit places
            (after_query w city api_key limit place s)).
    rewrite IH, after_query_infos, <- app_assoc. reflexivity.
Qed.

Lemma after_query_throttle (w : World) city api_key limit place s :
  (exists msg,
     slept (after_query w city api_key limit place s) = slept s
     /\ messages_at ERROR (logs (after_query w city api_key limit place s))
        = messages_at ERROR (logs s) ++ [msg])
  \/ (slept (after_query w city api_key limit place s)
      = slept s ++ [DELAY_BETWEEN_QUERIES]
      /\ messages_at ERROR (logs (after_query w city api_key limit place s))
         = messages_at ERROR (logs s)).
Proof.
  unfold after_query. destruct (search_entries _ _ _) as [e|entries].
  - left. eexists. split; [reflexivity|].
    cbn [logs failed_state set_logs]. rewrite messages_at_app. reflexivity.
  - destruct (entries !! _).
    + left. eexists. split; [reflexivity|].
      cbn [logs after_partial]. rewrite messages_at_app. reflexivity.
    + right. split; [reflexivity|].
      cbn [logs after_success]. rewrite messages_at_app.
      change (search_info city place :: ?l) with ([search_info city place] ++ l).
      rewrite messages_at_app. unfold batch_warnings.
      rewrite messages_at_completion_log by discriminate.
      cbn. rewrite app_nil_r. reflexivity.
Qed.

(** X11. Every place type ends in exactly one of two ways: its query sleeps
    once, for [DELAY_BETWEEN_QUERIES] seconds, or it logs one error and does
    not sleep.  Over a run the number of sleeps and the number of errors
    logged add up to the number of place types. *)
Theorem sleep_or_error_per_query
    (w : World) (city : string) (place_types : list string)
    (api_key : string) (limit : Z) (s0 : State) :
  exists data s' sleeps errors,
    fetch_places_async w city place_types api_key limit s0 = (Ok data, s')
    /\ slept s' = slept s0 ++ replicate sleeps DELAY_BETWEEN_QUERIES
    /\ messages_at ERROR (logs s') = messages_at ERROR (logs s0) ++ errors
    /\ (sleeps + length errors = length place_types)%nat.
Proof.
  rewrite fetch_places_async_run.
  change (logs s0) with (logs (set_data [] [] s0)).
  change (slept s0) with (slept (set_data [] [] s0)).
  generalize (set_data [] [] s0) as s.
  induction place_types as [|place places IH]; intros s.
  - eexists _, _, 0%nat, []. split; [reflexivity|]. cbn.
    rewrite !app_nil_r. auto.
  - destruct (IH (after_query w city api_key limit place s))
      as (data & s' & sleeps & errors & Hrun & Hslept & Herr & Hcount).
    injection Hrun as Hdata Hs'.
    cbn [after_queries foldl].
    fold (after_queries w city api_key limit places
            (after_query w city api_key limit place s)).
    rewrite Hs'.
    destruct (after_query_throttle w city api_key limit place s)
      as [(msg & Hsl & Her)|[Hsl Her]].
    + exists (all_data s'), s', sleeps, (msg :: errors).
      split; [reflexivity|]. rewrite Hslept, Herr, Hsl, Her, <- app_assoc.
      split; [reflexivity|]. split; [reflexivity|]. cbn. lia.
    + exists (all_data s'), s', (S sleeps), errors.
      split; [reflexivity|]. rewrite Hslept, Herr, Hsl, Her, <- app_assoc.
      split; [reflexivity|]. split; [reflexivity|]. cbn. lia.
Qed.

Example sleep_or_error_demo :
  let s := snd (fetch_places_async Demo.world "Lahore"
                  ["coffee shops"; "tea houses"; "bakeries"] "key" 2 init_state) in
  slept s = [1; 1] /\ length (messages_at ERROR (logs s)) = 1%nat.
Proof. vm_compute. split; reflexivity. Qed.

Lemma flat_map_seq_lookup {A B} (l : list A) :
  forall (g : nat -> A -> list B),
    flat_map (fun j => match l !! j with
                       | Some x => g j x
                       | None => []
                       end) (seq 0 (length l))
    = concat (imap g l).
Proof.
  induction l as [|x l IH]; intros g; [reflexivity|].
  cbn [length seq flat_map]. rewrite imap_cons. cbn [concat lookup list_lookup].
  f_equal. rewrite <- seq_shift, flat_map_concat_map, map_map.
  rewrite <- flat_map_concat_map. apply (IH (g ∘ S)).
Qed.

Lemma batch_warnings_perm (w : World) base links :
  batch_warnings w base links
  ≡ₚ concat (imap (fun i link => option_list (link_warning w (base + i) link))
               links).
Proof.
  unfold batch_warnings, completion_log.
  rewrite <- flat_map_seq_lookup.
  transitivity (flat_map (fun j => match links !! j with
                                   | Some link => resolver_log w (base + j) link
                                   | None => []
                                   end) (seq 0 (length links))).
  - apply Permutation_flat_map, completion_order_perm, length_seq.
  - apply Permutation_refl'. apply flat_map_ext. intros j.
    destruct (links !! j); [apply resolver_log_link_warning | reflexivity].
Qed.

(** X12. After a successful search whose "organic_results" is a list of
    objects, the query adds to the log its "Searching" line followed by the
    warnings of its resolvers, and these are, up to their order (that of
    completion), exactly one warning per entry whose page fetch fails:
    for a link that is a string, the warning names the link and carries
    the text of the exception of the request, of [raise_for_status] or of
    reading the body; for a link that is not a string it prints the value
    and the exception [session.get] raises on it.  Entries whose fetch
    succeeds log nothing. *)
Theorem one_warning_per_failed_fetch
    (w : World) (city api_key : string) (limit : Z) (place : string)
    (s : State) (resp : Response) (fields : gmap string JSON)
    (entries : list (gmap string JSON)) :
  net w (issued s) (search_request city place api_key limit) = inr resp ->
  status resp < 400 ->
  json resp = inr (JObj fields) ->
  default (JArr []) (fields !! "organic_results") = JArr (JObj <$> entries) ->
  exists s' warns,
    query_batch w city api_key limit place s = (Ok tt, s')
    /\ logs s' = logs s ++ search_info city place :: warns
    /\ warns
       ≡ₚ concat
            (imap (fun i e =>
                     match default (JStr "") (e !! "link") with
                     | JStr url =>
                         match net w (S (issued s) + i) (page_request url) with
                         | inl err => [fetch_warning url err]
                         | inr r =>
                             if 400 <=? status r
                             then [fetch_warning url
                                     (ClientResponseError (status r)
                                        (error_text r))]
                             else match text r with
                                  | inl err => [fetch_warning url err]
                                  | inr _ => []
                                  end
                         end
                     | v => [fetch_warning (py_str w v) (bad_url w v)]
                     end) entries).
Proof.
  intros Hnet Hstatus Hjson Horg.
  rewrite (query_batch_success _ _ _ _ _ _ _ _ _ Hnet Hstatus Hjson Horg).
  eexists _, _. split; [reflexivity|]. split; [reflexivity|].
  rewrite batch_warnings_perm.
  apply Permutation_refl'. f_equal. clear Hnet Hstatus Hjson Horg.
  generalize (S (issued s)) as base.
  induction entries as [|e entries IH]; intros base; [reflexivity|].
  cbn [map]. rewrite !imap_cons. f_equal.
  - unfold link_warning, link_of, fetch_error. rewrite Nat.add_0_r.
    destruct (default (JStr "") (e !! "link")) as [| | | |url| |];
      try reflexivity.
    destruct (net w base (page_request url)) as [err|r]; [reflexivity|].
    destruct (400 <=? status r); [reflexivity|].
    destruct (text r); reflexivity.
  - specialize (IH (S base)).
    erewrite imap_ext; [erewrite (imap_ext _ _ entries) |].
    + exact IH.
    + intros i e' _. cbn. replace (base + S i)%nat with (S base + i)%nat by lia.
      reflexivity.
    + intros i link _. cbn. replace (base + S i)%nat with (S base + i)%nat by lia.
      reflexivity.
Qed.

Lemma one_warning_per_failed_fetch_witness :
  exists s',
    query_batch Demo.world "Lahore" "key" 2 "bakeries" init_state
    = (Ok tt, s')
    /\ logs s'
       ≡ₚ [(INFO, "Searching: bakeries in Lahore");
           (WARNING, "Failed to fetch URL : cannot connect");
           (WARNING, "Failed to fetch URL L4: 404, message='Not Found', url='L4'")].
Proof.
  destruct (one_warning_per_failed_fetch Demo.world "Lahore" "key" 2
              "bakeries" init_state
              (mkResponse 200 "" (inr "{}")
                 (inr (JObj (<["organic_results" :=
                      JArr [Demo.entry "C" "L3";
                            JObj (<["snippet" := JStr "fresh"]> ∅);
                            Demo.entry "D" "L4"]]> ∅))))
              (<["organic_results" :=
                   JArr [Demo.entry "C" "L3";
                         JObj (<["snippet" := JStr "fresh"]> ∅);
                         Demo.entry "D" "L4"]]> ∅)
              [Demo.fields "C" "L3"; <["snippet" := JStr "fresh"]> ∅;
               Demo.fields "D" "L4"])
    as (s' & warns & Hrun & Hlogs & Hperm).
  - vm_compute. reflexivity.
  - cbn. lia.
  - reflexivity.
  - reflexivity.
  - exists s'. split; [exact Hrun|].
    rewrite Hlogs. cbn [logs init_state app]. constructor.
    rewrite Hperm. vm_compute. reflexivity.
Defined.

(** ** Query Runner: the event loop over a whole run *)

Lemma after_query_same_but_log_order
    (w : World) pick' city api_key limit place s1 s2 :
  same_but_log_order s1 s2 ->
  same_but_log_order
    (after_query (with_pick pick' w) city api_key limit place s1)
    (after_query w city api_key limit place s2).
Proof.
  intros (Hd & Hh & Hi & Hc & Hsl & Hf & Hl). unfold after_query.
  rewrite Hi.
  change (search_entries (with_pick pick' w)) with (search_entries w).
  destruct (search_entries _ _ _) as [e|entries].
  - unfold same_but_log_order, failed_state. cbn.
    rewrite Hi. repeat split; try assumption.
    apply Permutation_app_tail, Hl.
  - destruct (entries !! _).
    + unfold same_but_log_order, after_partial.
      cbn [all_data history issued clock slept files logs].
      rewrite Hd, Hh, Hi, Hc, Hsl, Hf. repeat split.
      apply Permutation_app_tail, Hl.
    + unfold same_but_log_order, after_success.
      cbn [all_data history issued clock slept files logs].
      rewrite Hd, Hh, Hi, Hc, Hsl, Hf. repeat split.
      apply Permutation_app; [exact Hl|]. constructor.
      rewrite !batch_warnings_perm. reflexivity.
Qed.

Lemma after_queries_same_but_log_order
    (w : World) pick' city api_key limit places :
  forall s1 s2,
    same_but_log_order s1 s2 ->
    same_but_log_order
      (after_queries (with_pick pick' w) city api_key limit places s1)
      (after_queries w city api_key limit places s2).
Proof.
  induction places as [|place places IH]; intros s1 s2 Hs; simpl.
  - exact Hs.
  - apply IH, after_query_same_but_log_order, Hs.
Qed.

(** X13. A whole run returns the same records under every event loop, with
    the same history of writes, the same number of requests and clock
    readings and the same sleeps; the logs of two event loops hold the same
    entries and can differ in their order only. *)
Theorem run_independent_of_event_loop
    (w : World) (pick' : nat -> nat) (city : string)
    (place_types : list string) (api_key : string) (limit : Z) (s0 : State) :
  exists data s1 s2,
    fetch_places_async (with_pick pick' w) city place_types api_key limit s0
    = (Ok data, s1)
    /\ fetch_places_async w city place_types api_key limit s0 = (Ok data, s2)
    /\ history s1 = history s2
    /\ issued s1 = issued s2
    /\ clock s1 = clock s2
    /\ slept s1 = slept s2
    /\ logs s1 ≡ₚ logs s2.
Proof.
  rewrite !fetch_places_async_run.
  destruct (after_queries_same_but_log_order w pick' city api_key limit
              place_types (set_data [] [] s0) (set_data [] [] s0))
    as (Hd & Hh & Hi & Hc & Hsl & _ & Hl).
  { repeat split; reflexivity. }
  eexists _, _, _. split; [reflexivity|]. rewrite Hd.
  split; [reflexivity|]. auto.
Qed.

(** ** Main execution *)

(** X14. The program queries the configured city and place types and then
    exports once.  The queries write no file.  With no record, no file is
    written and the program ends normally; with records and a writer that
    accepts them exactly one file is written, [OUTPUT_FILE], holding the
    header row and, for each record in order, one row with that record's
    seven values; and the program fails only when there are records and the
    writer fails, with the writer's error, without logging success, and
    with on disk whatever partial file the writer left. *)
Theorem main_writes_once (w : World) (s0 : State) :
  exists data s1,
    fetch_places_async w CITY PLACE_TYPES API_KEY RESULTS_LIMIT s0
    = (Ok data, s1)
    /\ files s1 = files s0
    /\ (data = [] ->
        exists s', main w s0 = (Ok tt, s') /\ files s' = files s0)
    /\ (data <> [] ->
        excel_writer w OUTPUT_FILE (DataFrame data) = Written ->
        exists s' sheet,
          main w s0 = (Ok tt, s')
          /\ files s' = files s0 ++ [(OUTPUT_FILE, sheet)]
          /\ length sheet = S (length data)
          /\ sheet !! 0%nat
             = Some [JStr "City"; JStr "Place Type"; JStr "Name";
                     JStr "Description"; JStr "Details"; JStr "Link";
                     JStr "Fetched On"]
          /\ forall i r,
               data !! i = Some r ->
               sheet !! S i
               = Some [JStr (City r); JStr (Place_Type r); Name r;
                       Description r;
                       match Details r with Some d => JStr d | None => JNull end;
                       Link r; JStr (Fetched_On r)])
    /\ (forall e s',
          main w s0 = (Raise e, s') ->
          data <> []
          /\ logs s' = logs s1
          /\ exists left_on_disk,
               excel_writer w OUTPUT_FILE (DataFrame data)
               = WriteFailed e left_on_disk
               /\ files s'
                  = files s0 ++ option_list (pair OUTPUT_FILE <$> left_on_disk)).
Proof.
  pose proof (fetch_places_async_run w CITY PLACE_TYPES API_KEY RESULTS_LIMIT s0)
    as Hrun.
  set (s1 := after_queries _ _ _ _ _ _) in Hrun.
  assert (Hfiles : files s1 = files s0).
  { destruct (after_queries_counters w CITY API_KEY RESULTS_LIMIT PLACE_TYPES
                (set_data [] [] s0)) as (_ & _ & Hf). exact Hf. }
  exists (all_data s1), s1. split; [exact Hrun|]. split; [exact Hfiles|].
  assert (Hmain : main w s0 = save_to_excel w (all_data s1) OUTPUT_FILE s1).
  { unfold main. rewrite (bind_ok _ _ _ _ _ Hrun). reflexivity. }
  rewrite Hmain. split; [|split].
  - intros ->. eexists. split; [reflexivity | exact Hfiles].
  - intros Hne Hok. destruct (all_data s1) as [|r data] eqn:Hdata;
      [contradiction|].
    unfold save_to_excel, bind, to_excel. rewrite Hok.
    eexists _, _. split; [reflexivity|]. cbn [files set_logs set_files logs].
    rewrite Hfiles. split; [reflexivity|]. split.
    { unfold DataFrame. cbn [length]. rewrite length_map. reflexivity. }
    split; [reflexivity|].
    intros i r' Hr'. unfold DataFrame. cbn [lookup list_lookup].
    change (map record_values (r :: data) !! i
            = Some [JStr (City r'); JStr (Place_Type r'); Name r';
                    Description r';
                    match Details r' with Some d => JStr d | None => JNull end;
                    Link r'; JStr (Fetched_On r')]).
    rewrite list_lookup_fmap, Hr'. unfold record_values. simpl.
    destruct (Details r'); reflexivity.
  - intros e s'. destruct (all_data s1) as [|r data] eqn:Hdata.
    + discriminate.
    + unfold save_to_excel, bind, to_excel.
      destruct (excel_writer w OUTPUT_FILE (DataFrame (r :: data)))
        as [|e0 left_on_disk]; [discriminate|].
      intros Heq. injection Heq as <- <-.
      split; [discriminate|]. split; [reflexivity|].
      exists left_on_disk. split; [reflexivity|].
      cbn [files set_files]. rewrite Hfiles. reflexivity.
Qed.

Lemma main_writes_once_witness :
  exists s',
    main Demo.world init_state = (Ok tt, s')
    /\ length <$> (snd <$> files s') = [3%nat].
Proof.
  destruct (main_writes_once Demo.world init_state)
    as (data & s1 & Hrun & _ & _ & Hwrite & _).
  assert (Hdata : data = all_data (snd (fetch_places_async Demo.world CITY
                    PLACE_TYPES API_KEY RESULTS_LIMIT init_state))).
  { rewrite Hrun. rewrite fetch_places_async_run in Hrun.
    injection Hrun as <- <-. reflexivity. }
  destruct Hwrite as (s' & sheet & Hmain & Hfiles & Hlen & _).
  - rewrite Hdata. vm_compute. discriminate.
  - reflexivity.
  - exists s'. split; [exact Hmain|].
    rewrite Hfiles. cbn. rewrite Hlen, Hdata. vm_compute. reflexivity.
Defined.

(** ** Query Runner: the order of the result *)

Lemma after_query_place_types (w : World) city api_key limit place s :
  exists n,
    map Place_Type (all_data (after_query w city api_key limit place s))
    = map Place_Type (all_data s) ++ replicate n place.
Proof.
  unfold after_query. destruct (search_entries _ _ _) as [e|entries].
  - exists 0%nat. cbn. rewrite app_nil_r. reflexivity.
  - exists (length (objects_prefix entries)).
    destruct (entries !! _).
    + cbn [all_data after_partial]. rewrite map_app. f_equal.
      symmetry. apply replicate_as_Forall. split.
      * rewrite length_map. apply created_length.
      * apply Forall_fmap, Forall_lookup. intros i r Hr.
        apply created_lookup_inv in Hr as (e & _ & ->). reflexivity.
    + cbn [all_data after_success]. rewrite map_app. f_equal.
      symmetry. apply replicate_as_Forall. split.
      * rewrite length_map. apply merged_length.
      * apply Forall_fmap, Forall_lookup. intros i r Hr.
        apply merged_lookup_inv in Hr as (e & _ & ->). reflexivity.
Qed.

(** X15. The result lists the records batch by batch in the order the place
    types were given: the place types of the returned records are a first
    run of records of the first place type, then a run for the second, and
    so on (a run is empty when the search failed or found nothing). *)
Theorem batches_in_submission_order
    (w : World) (city : string) (place_types : list string)
    (api_key : string) (limit : Z) (s0 : State) :
  exists data s' counts,
    fetch_places_async w city place_types api_key limit s0 = (Ok data, s')
    /\ length counts = length place_types
    /\ map Place_Type data = concat (zip_with replicate counts place_types).
Proof.
  rewrite fetch_places_async_run.
  assert (H : forall s, exists counts,
             length counts = length place_types
             /\ map Place_Type
                  (all_data (after_queries w city api_key limit place_types s))
                = map Place_Type (all_data s)
                  ++ concat (zip_with replicate counts place_types)).
  { induction place_types as [|place places IH]; intros s.
    - exists []. cbn. rewrite app_nil_r. auto.
    - destruct (IH (after_query w city api_key limit place s))
        as (counts & Hlen & Hmap).
      destruct (after_query_place_types w city api_key limit place s)
        as [n Hn].
      exists (n :: counts). split; [cbn; lia|].
      cbn [after_queries foldl zip_with concat].
      fold (after_queries w city api_key limit places
              (after_query w city api_key limit place s)).
      rewrite Hmap, Hn, <- app_assoc. reflexivity. }
  destruct (H (set_data [] [] s0)) as (counts & Hlen & Hmap).
  eexists _, _, counts. split; [reflexivity|]. split; [exact Hlen|].
  exact Hmap.
Qed.

Example batches_in_submission_order_demo :
  map Place_Type
    (all_data (snd (fetch_places_async Demo.world "Lahore"
                      ["bakeries"; "tea houses"; "coffee shops"] "key" 2
                      init_state)))
  = ["bakeries"; "bakeries"; "bakeries"; "coffee shops"; "coffee shops"].
Proof. vm_compute. reflexivity. Qed.

(** ** The life of a record, for well-formed responses *)

Lemma replay_app h1 h2 :
  forall data, replay (h1 ++ h2) data = replay h1 data ≫= replay h2.
Proof.
  induction h1 as [|[r|k d] h1 IH]; intros data; simpl.
  - reflexivity.
  - apply IH.
  - destruct (data !! k); [apply IH | reflexivity].
Qed.

Lemma replay_appends rs :
  forall data, replay (map MAppend rs) data = Some (data ++ rs).
Proof.
  induction rs as [|r rs IH]; intros data; simpl.
  - rewrite app_nil_r. reflexivity.
  - rewrite IH, <- app_assoc. reflexivity.
Qed.

Lemma replay_set_events (pre : list PlaceRecord) ds :
  forall k done batch,
    length done = k ->
    length batch = length ds ->
    replay (set_events (length pre) (enumerate_from k ds)) (pre ++ done ++ batch)
    = Some (pre ++ done ++ merged batch ds).
Proof.
  induction ds as [|d ds IH]; intros k done batch Hk Hbatch.
  - destruct batch; [reflexivity | discriminate].
  - destruct batch as [|r batch]; [discriminate|].
    cbn [enumerate_from set_events map replay fst snd].
    assert (Hidx : (length pre + k = length (pre ++ done) + 0)%nat).
    { rewrite length_app. lia. }
    rewrite Hidx, app_assoc.
    rewrite lookup_app_r by lia.
    replace (length (pre ++ done) + 0 - length (pre ++ done))%nat with 0%nat by lia.
    cbn [lookup list_lookup]. rewrite alter_app_r. cbn [alter list_alter].
    rewrite <- app_assoc.
    replace (pre ++ done ++ with_Details (Some d) r :: batch)
      with (pre ++ (done ++ [with_Details (Some d) r]) ++ batch)
      by (rewrite <- app_assoc; reflexivity).
    rewrite (IH (S k)).
    + rewrite <- app_assoc. reflexivity.
    + rewrite length_app, Hk. simpl. lia.
    + simpl in Hbatch. lia.
Qed.

Lemma writes_to_app k h1 h2 :
  writes_to k (h1 ++ h2) = writes_to k h1 ++ writes_to k h2.
Proof. apply omap_app. Qed.

Lemma writes_to_appends k rs : writes_to k (map MAppend rs) = [].
Proof. induction rs as [|r rs IH]; simpl; [reflexivity | exact IH]. Qed.

Lemma writes_to_set_events_out k offset ds :
  forall j,
    (k < offset + j \/ offset + j + length ds <= k)%nat ->
    writes_to k (set_events offset (enumerate_from j ds)) = [].
Proof.
  induction ds as [|d ds IH]; intros j Hout; [reflexivity|].
  cbn [enumerate_from set_events map writes_to omap list_omap fst snd].
  simpl in Hout. rewrite decide_False by lia.
  apply IH. lia.
Qed.

Lemma writes_to_set_events_in offset ds :
  forall j i d,
    ds !! i = Some d ->
    writes_to (offset + j + i) (set_events offset (enumerate_from j ds)) = [d].
Proof.
  induction ds as [|d0 ds IH]; intros j i d Hd; [discriminate|].
  cbn [enumerate_from set_events map writes_to omap list_omap fst snd].
  destruct i as [|i].
  - injection Hd as ->. rewrite decide_True by lia.
    f_equal. apply writes_to_set_events_out. lia.
  - rewrite decide_False by lia.
    replace (offset + j + S i)%nat with (offset + S j + i)%nat by lia.
    apply IH. exact Hd.
Qed.

Lemma settled_empty (w : World) : settled w [] [].
Proof. split; [reflexivity|]. split; [reflexivity|]. intros k. reflexivity. Qed.

Lemma settled_success (w : World) city place c base entries data h :
  settled w data h ->
  let batch := created w city place c entries in
  let details := details_of w base (map link_of entries) in
  settled w (data ++ merged batch details)
          (h ++ map MAppend batch ++ set_events (length data) (enumerate details)).
Proof.
  intros (Hreplay & Hlen & Hlife) batch details.
  assert (Hbatch : length batch = length details).
  { unfold batch, details.
    rewrite created_length, details_of_length, length_map. reflexivity. }
  split; [|split].
  - rewrite replay_app, Hreplay. cbn [mbind option_bind].
    rewrite replay_app, replay_appends. cbn [mbind option_bind].
    apply (replay_set_events data details 0 [] batch eq_refl Hbatch).
  - rewrite !appended_app, appended_appends, appended_set_events, app_nil_r.
    rewrite !length_app, Hlen. f_equal.
    unfold batch, details. rewrite merged_length. apply created_length.
  - intros k.
    rewrite !writes_to_app, writes_to_appends, app_nil_l.
    rewrite !appended_app, appended_appends, appended_set_events, app_nil_r.
    destruct (decide (k < length data)%nat) as [Hk|Hk].
    { rewrite lookup_app_l by exact Hk.
      specialize (Hlife k).
      destruct (data !! k) as [r|] eqn:Hr.
      2: { apply lookup_ge_None in Hr. lia. }
      destruct Hlife as (r0 & d & html & Hr0 & Hnone & Hw & Hrd & Hd).
      exists r0, d, html.
      rewrite (lookup_app_l_Some _ _ _ _ Hr0), Hw.
      unfold enumerate. rewrite writes_to_set_events_out by lia.
      auto. }
    assert (Hold : writes_to k h = []).
    { specialize (Hlife k). rewrite lookup_ge_None_2 in Hlife by lia.
      exact Hlife. }
    rewrite Hold, app_nil_l.
    rewrite lookup_app_r by lia.
    destruct (entries !! (k - length data)%nat) as [e|] eqn:He.
    + unfold batch, details.
      rewrite (merged_lookup _ _ _ _ _ _ _ _ He).
      destruct (resolved_ok w (link_of e) (base + (k - length data))%nat)
        as (d & html & Hres & Hd).
      assert (Hdet : detail_of w (base + (k - length data)) (link_of e) = d).
      { unfold detail_of. rewrite Hres. reflexivity. }
      eexists _, d, html.
      rewrite lookup_app_r by lia. rewrite Hlen.
      rewrite (created_lookup _ _ _ _ _ _ _ He).
      split; [reflexivity|]. split; [reflexivity|]. split; [|split].
      * replace k with (length data + 0 + (k - length data))%nat at 1 by lia.
        unfold enumerate. apply writes_to_set_events_in.
        rewrite (details_of_lookup _ _ _ _ _ He), Hdet. reflexivity.
      * rewrite Hdet. reflexivity.
      * exact Hd.
    + apply lookup_ge_None in He.
      rewrite lookup_ge_None_2.
      2: { unfold batch, details. rewrite merged_length. exact He. }
      apply writes_to_set_events_out. unfold enumerate.
      unfold details. rewrite details_of_length, length_map. lia.
Qed.

Lemma after_query_well_formed (w : World) city api_key limit place s :
  api_well_formed w ->
  (exists e, after_query w city api_key limit place s
             = failed_state city place e s)
  \/ (exists objs, after_query w city api_key limit place s
                   = after_success w city place objs s).
Proof.
  intros Hwf. unfold after_query, search_entries, search_outcome.
  destruct (net w (issued s) _) as [e|resp] eqn:Hnet; [left; eauto|].
  destruct (400 <=? status resp); [left; eauto|].
  destruct (json resp) as [e|body] eqn:Hjson; [left; eauto|].
  destruct (Hwf (issued s) (search_request city place api_key limit) resp body
              eq_refl Hnet Hjson) as (fields & objs & -> & Horg).
  cbn [dict_get]. rewrite Horg. cbn [py_iter].
  rewrite objects_prefix_all_lookup, objects_prefix_all. right. eauto.
Qed.

Lemma settled_queries (w : World) city api_key limit places :
  api_well_formed w ->
  forall s,
    settled w (all_data s) (history s) ->
    settled w (all_data (after_queries w city api_key limit places s))
              (history (after_queries w city api_key limit places s)).
Proof.
  intros Hwf. induction places as [|place places IH]; intros s Hs; simpl.
  - exact Hs.
  - apply IH.
    destruct (after_query_well_formed w city api_key limit place s Hwf)
      as [[e ->]|[objs ->]].
    + exact Hs.
    + cbn [all_data history after_success]. apply settled_success, Hs.
Qed.

(** X16. When every body the search API sends is an object whose
    "organic_results" is absent or a list of objects, the detail of every
    record is set exactly once: the writes [fetch_places_async] performed
    rebuild the list it returns, and for every record in it: it was
    appended with no detail, exactly one write set its detail, to an output
    of the extractor (the text of the page, or the placeholder of a failed
    fetch), and the returned record is the appended one with that
    detail. *)
Theorem detail_set_exactly_once_when_well_formed
    (w : World) (city : string) (place_types : list string)
    (api_key : string) (limit : Z) (s0 : State) :
  api_well_formed w ->
  exists s',
    fetch_places_async w city place_types api_key limit s0
    = (Ok (all_data s'), s')
    /\ replay (history s') [] = Some (all_data s')
    /\ length (appended (history s')) = length (all_data s')
    /\ forall k r,
         all_data s' !! k = Some r ->
         exists r0 d html,
           appended (history s') !! k = Some r0
           /\ Details r0 = None
           /\ writes_to k (history s') = [d]
           /\ Details r = Some d
           /\ r = with_Details (Some d) r0
           /\ d = extract_details_from_html w html default_char_limit.
Proof.
  intros Hwf. rewrite fetch_places_async_run.
  destruct (settled_queries w city api_key limit place_types Hwf
              (set_data [] [] s0) (settled_empty w))
    as (Hreplay & Hlen & Hlife).
  eexists. split; [reflexivity|].
  split; [exact Hreplay | split; [exact Hlen|]].
  intros k r Hr. specialize (Hlife k). rewrite Hr in Hlife.
  destruct Hlife as (r0 & d & html & Hr0 & Hnone & Hw & Hrd & Hd).
  exists r0, d, html. rewrite Hrd. auto 10.
Qed.

Lemma demo_api_well_formed : api_well_formed Demo.world.
Proof.
  intros rid req resp body Hurl Hnet Hjson. cbn in Hnet.
  unfold Demo.network, Demo.search_page, Demo.page in Hnet.
  repeat case_decide; simplify_eq; cbn in Hjson; simplify_eq.
  - exists (<["organic_results" :=
               JArr [Demo.entry "A" "L1"; Demo.entry "B" "L2"]]> ∅),
           [Demo.fields "A" "L1"; Demo.fields "B" "L2"].
    split; reflexivity.
  - exists (<["organic_results" :=
               JArr [Demo.entry "C" "L3"; JObj (<["snippet" := JStr "fresh"]> ∅);
                     Demo.entry "D" "L4"]]> ∅),
           [Demo.fields "C" "L3"; <["snippet" := JStr "fresh"]> ∅;
            Demo.fields "D" "L4"].
    split; reflexivity.
  - exists ∅, []. split; reflexivity.
Qed.

Lemma detail_set_exactly_once_when_well_formed_witness :
  exists s' d,
    fetch_places_async Demo.world "Lahore" ["coffee shops"] "key" 2 init_state
    = (Ok (all_data s'), s')
    /\ writes_to 0 (history s') = [d].
Proof.
  destruct (detail_set_exactly_once_when_well_formed Demo.world "Lahore"
              ["coffee shops"] "key" 2 init_state demo_api_well_formed)
    as (s' & Hrun & _ & _ & Hlife).
  assert (Hs : s' = snd (fetch_places_async Demo.world "Lahore" ["coffee shops"]
                           "key" 2 init_state))
    by (rewrite Hrun; reflexivity).
  destruct (Hlife 0%nat (mkPlaceRecord "Lahore" "coffee shops" (JStr "A")
                           (JStr "N/A") (Some "Hello") (JStr "L1")
                           "2024-01-01 00:00:00"))
    as (r0 & d & html & _ & _ & Hw & _).
  - rewrite Hs. vm_compute. reflexivity.
  - exists s', d. split; [exact Hrun | exact Hw].
Defined.

Example history_of_a_run :
  history (snd (fetch_places_async Demo.world "Lahore" ["coffee shops"]
                  "key" 2 init_state))
  = [MAppend (mkPlaceRecord "Lahore" "coffee shops" (JStr "A") (JStr "N/A")
                None (JStr "L1") "2024-01-01 00:00:00");
     MAppend (mkPlaceRecord "Lahore" "coffee shops" (JStr "B") (JStr "N/A")
                None (JStr "L2") "2024-01-01 00:00:01");
     MSetDetails 0 "Hello"; MSetDetails 1 "N/A"].
Proof. vm_compute. reflexivity. Qed.

(** The end-to-end scenario: two results, the first page is fetched, the
    second times out; two rows are written. *)
Example end_to_end :
  let s := snd (main Demo.world init_state) in
  map (fun r => (Name r, Details r)) (all_data s)
  = [(JStr "A", Some "Hello"); (JStr "B", Some "N/A")]
  /\ (length <$> (snd <$> files s)) = [3%nat].
Proof. vm_compute. split; reflexivity. Qed.
